(** * Binomial option pricing model (CRR tree) and finite-difference Greeks

    Shallow embedding of [binomial_model.py]: the tree pricer
    [binomial_price] and the Greeks wrapper [greeks_binomial].

    Floating-point numbers are idealised as real numbers ([R]); integers
    (the step count [N], loop indices) are [Z] and [nat]; the strings
    [option] and [style] stay strings, compared as the code compares them.
    Python exceptions are values of [exn]; everything fallible returns a
    [result]. *)

From Stdlib Require Import Reals Lra Lia ZArith List String Bool.
Import ListNotations.

Open Scope R_scope.

(** ** Exceptions and results *)

(** What numpy's float64 division can produce: a finite number, or (when the
    divisor is zero) an infinity or a NaN, with a warning and no exception. *)
Inductive npfloat : Type :=
| Fin (x : R)
| PInf
| NInf
| NaN.

Inductive exn : Type :=
| ZeroDivisionError
    (* Python's float division by zero *)
| InvalidConfiguration
    (* ValueError("T must be > 0 and N must be >= 1") *)
| ArbitrageViolation (p : npfloat)
    (* ValueError(f"Invalid probability p={p:.4f}. ...") *)
| BroadcastError
    (* ValueError: operands could not be broadcast together *)
| IndexError.
    (* index 0 is out of bounds for axis 0 with size 0 *)

Inductive result (A : Type) : Type :=
| Ok (a : A)
| Raise (e : exn).

Arguments Ok {A} a.
Arguments Raise {A} e.

Definition bind {A B : Type} (m : result A) (k : A -> result B) : result B :=
  match m with
  | Ok a => k a
  | Raise e => Raise e
  end.

Notation "x <- m ;; k" := (bind m (fun x => k))
  (at level 61, m at next level, right associativity).

(** ** Python and numpy primitives *)

Definition Rltb (x y : R) : bool := if Rlt_dec x y then true else false.
Definition Rleb (x y : R) : bool := if Rle_dec x y then true else false.

(** [x / n] on a Python float and a Python int. *)
Definition py_truediv (x : R) (n : Z) : result R :=
  if (n =? 0)%Z then Raise ZeroDivisionError else Ok (x / IZR n).

(** [x / y] on two Python floats. *)
Definition py_div (x y : R) : result R :=
  if Req_dec_T y 0 then Raise ZeroDivisionError else Ok (x / y).

(** [x / y] on numpy float64 scalars. *)
Definition np_div (x y : R) : npfloat :=
  if Req_dec_T y 0 then
    if Rltb 0 x then PInf else if Rltb x 0 then NInf else NaN
  else Fin (x / y).

(** The chained comparison [0 < p < 1]. *)
Definition between_0_1 (p : npfloat) : bool :=
  match p with
  | Fin x => Rltb 0 x && Rltb x 1
  | PInf => false    (* 0 < inf, but not inf < 1 *)
  | NInf => false
  | NaN => false
  end.

(** The no-arbitrage condition on the derived probability. *)
Definition valid_probability (p : npfloat) : Prop :=
  exists x, p = Fin x /\ 0 < x < 1.

(** [range(n)]: its elements are never negative, so they are kept as [nat]. *)
Definition range (n : Z) : list nat := seq 0 (Z.to_nat n).

(** [range(n - 1, -1, -1)]. *)
Definition range_down (n : Z) : list nat := rev (seq 0 (Z.to_nat n)).

(** [x ** k] for a float and an int. *)
Definition py_pow (x : R) (k : Z) : R := powerRZ x k.

(** [V[a:b]] for indices that are not negative. *)
Definition slice (a b : nat) (V : list R) : list R := skipn a (firstn b V).

(** Element-wise binary operation on two one-dimensional arrays, with numpy's
    broadcasting: equal lengths, or one of the two of length one. *)
Definition np_zip (f : R -> R -> R) (a b : list R) : result (list R) :=
  if (List.length a =? List.length b)%nat then
    Ok (map (fun xy => f (fst xy) (snd xy)) (combine a b))
  else if (List.length a =? 1)%nat then Ok (map (f (hd 0 a)) b)
  else if (List.length b =? 1)%nat then Ok (map (fun x => f x (hd 0 b)) a)
  else Raise BroadcastError.

(** scalar [*] array *)
Definition np_scale (c : R) (a : list R) : list R := map (Rmult c) a.

(** [float(V[0])] *)
Definition item0 (V : list R) : result R :=
  match V with
  | [] => Raise IndexError
  | v :: _ => Ok v
  end.

(** ** The tree pricer *)

Section Pricer.

Variables (S K T r sigma : R) (N : Z) (option style : string) (q : R).

(** Lines 28-32, given the step length [dt]. *)
Definition up_factor (dt : R) : R := exp (sigma * sqrt dt).
Definition down_factor (dt : R) : R := 1 / up_factor dt.
Definition risk_neutral_p (dt : R) : npfloat :=
  np_div (exp ((r - q) * dt) - down_factor dt)
         (up_factor dt - down_factor dt).

(** Underlying price at node [j] of step [i]:
    [S * (u**j) * (d**(i - j))]. *)
Definition node_price (u d : R) (i : Z) (j : nat) : R :=
  S * py_pow u (Z.of_nat j) * py_pow d (i - Z.of_nat j).

(** [np.maximum(prices - K, 0.0)] for a call, [np.maximum(K - prices, 0.0)]
    otherwise. *)
Definition payoff (prices : list R) : list R :=
  if (option =? "call")%string
  then map (fun x => Rmax (x - K) 0) prices
  else map (fun x => Rmax (K - x) 0) prices.

(** Body of the backward loop (lines 52-64) at step [i]. *)
Definition backward_step (u d p disc : R) (i : nat) (V : list R)
  : result (list R) :=
  W <- np_zip Rplus (np_scale p (slice 1 (i + 2) V))
                    (np_scale (1 - p) (slice 0 (i + 1) V)) ;;
  let V := np_scale disc W in
  if (style =? "amer")%string then
    let S_nodes :=
      map (node_price u d (Z.of_nat i)) (range (Z.of_nat i + 1)) in
    let exercise := payoff S_nodes in
    np_zip Rmax V exercise
  else Ok V.

(** The [for] loop over the steps [steps], threading the layer [V]. *)
Fixpoint backward_loop (u d p disc : R) (steps : list nat) (V : list R)
  : result (list R) :=
  match steps with
  | [] => Ok V
  | i :: rest =>
      V' <- backward_step u d p disc i V ;;
      backward_loop u d p disc rest V'
  end.

Definition binomial_price : result R :=
  dt <- py_truediv T N ;;
  if Rleb dt 0 then Raise InvalidConfiguration else
  let u := up_factor dt in
  let d := down_factor dt in
  let p := risk_neutral_p dt in
  if negb (between_0_1 p) then Raise (ArbitrageViolation p) else
  match p with
  | Fin p =>
      let ST := map (node_price u d N) (range (N + 1)) in
      let V := payoff ST in
      let disc := exp (- r * dt) in
      V <- backward_loop u d p disc (range_down N) V ;;
      item0 V
  | _ => Raise (ArbitrageViolation p)   (* excluded by the check above *)
  end.

End Pricer.

(** The layers the backward loop meets: the pair [(i, V)] at the start of each
    iteration it enters. *)
Fixpoint visited_layers (style option : string) (S K u d p disc : R)
    (steps : list nat) (V : list R) : list (nat * list R) :=
  match steps with
  | [] => []
  | i :: rest =>
      (i, V) ::
      match backward_step S K option style u d p disc i V with
      | Ok V' => visited_layers style option S K u d p disc rest V'
      | Raise _ => []
      end
  end.

Definition price_layers (S K T r sigma : R) (N : Z) (option style : string)
    (q : R) : list (nat * list R) :=
  match py_truediv T N with
  | Ok dt =>
      let u := up_factor sigma dt in
      let d := down_factor sigma dt in
      match risk_neutral_p r sigma q dt with
      | Fin p =>
          visited_layers style option S K u d p (exp (- r * dt))
            (range_down N)
            (payoff K option (map (node_price S u d N) (range (N + 1))))
      | _ => []
      end
  | Raise _ => []
  end.

(** ** The Greeks wrapper *)

(** The arguments of one call of [binomial_price]. *)
Record call : Type := Call_ {
  call_S : R; call_K : R; call_T : R; call_r : R; call_sigma : R;
  call_N : Z; call_option : string; call_style : string; call_q : R
}.

(** Computations that call the pricer: the calls made so far are logged, in
    order, and an exception ends the computation. *)
Definition M (A : Type) : Type := list call -> result A * list call.

Definition ret {A : Type} (a : A) : M A := fun log => (Ok a, log).

Definition lift {A : Type} (m : result A) : M A := fun log => (m, log).

Definition bindM {A B : Type} (m : M A) (k : A -> M B) : M B :=
  fun log =>
    match m log with
    | (Ok a, log') => k a log'
    | (Raise e, log') => (Raise e, log')
    end.

Notation "x <~ m ;; k" := (bindM m (fun x => k))
  (at level 61, m at next level, right associativity).

Definition call_binomial_price (S K T r sigma : R) (N : Z)
    (option style : string) (q : R) : M R :=
  fun log =>
    (binomial_price S K T r sigma N option style q,
     log ++ [Call_ S K T r sigma N option style q]).

Record GreeksResult : Type := {
  price : R; delta : R; gamma : R; theta : R; vega : R; rho : R
}.

Definition greeks_binomial (S K T r sigma : R) (N : Z)
    (option style : string) (q h_S h_sigma h_T h_r : R) : M GreeksResult :=
  price0 <~ call_binomial_price S K T r sigma N option style q ;;
  up <~ call_binomial_price (S + h_S) K T r sigma N option style q ;;
  dn <~ call_binomial_price (S - h_S) K T r sigma N option style q ;;
  delta <~ lift (py_div (up - dn) (2 * h_S)) ;;
  gamma <~ lift (py_div (up - 2 * price0 + dn) (py_pow h_S 2)) ;;
  let Tp := T + h_T in
  let Tm := Rmax (T - h_T) (1 / 1000000) in
  vp <~ call_binomial_price S K Tp r sigma N option style q ;;
  vm <~ call_binomial_price S K Tm r sigma N option style q ;;
  theta0 <~ lift (py_div (vp - vm) (2 * h_T)) ;;
  let theta := theta0 * (-1) in
  sp <~ call_binomial_price S K T r (sigma + h_sigma) N option style q ;;
  sm <~ call_binomial_price S K T r (sigma - h_sigma) N option style q ;;
  vega <~ lift (py_div (sp - sm) (2 * h_sigma)) ;;
  rp <~ call_binomial_price S K T (r + h_r) sigma N option style q ;;
  rm <~ call_binomial_price S K T (r - h_r) sigma N option style q ;;
  rho <~ lift (py_div (rp - rm) (2 * h_r)) ;;
  ret {| price := price0; delta := delta; gamma := gamma;
         theta := theta; vega := vega; rho := rho |}.

(** One invocation, from an empty log: what it returns, and the calls of the
    pricer it made. *)
Definition greeks_result (S K T r sigma : R) (N : Z) (option style : string)
    (q h_S h_sigma h_T h_r : R) : result GreeksResult :=
  fst (greeks_binomial S K T r sigma N option style q h_S h_sigma h_T h_r []).

Definition greeks_calls (S K T r sigma : R) (N : Z) (option style : string)
    (q h_S h_sigma h_T h_r : R) : list call :=
  snd (greeks_binomial S K T r sigma N option style q h_S h_sigma h_T h_r []).

(** ** The backward induction as the specification words it *)

Module Spec.

Inductive option_kind : Type := Call | Put.

(** The strings the pricer is called with. *)
Definition kind_name (kind : option_kind) : string :=
  match kind with Call => "call" | Put => "put" end.

(** How the pricer reads its [option] argument. *)
Definition kind_of (option : string) : option_kind :=
  if (option =? "call")%string then Call else Put.

Section Lattice.

Variables (kind : option_kind) (S K : R).
(** the lattice parameters *)
Variables (u d p disc : R).

Definition exercise_value (x : R) : R :=
  match kind with
  | Call => Rmax (x - K) 0
  | Put => Rmax (K - x) 0
  end.

(** underlying price at node [j] of step [i] *)
Definition underlying (i j : nat) : R := S * u ^ j * d ^ (i - j).

(** the [N + 1] values at maturity *)
Definition maturity_layer (N : nat) : list R :=
  map (fun j => exercise_value (underlying N j)) (seq 0 (N + 1)).

(** discounted risk-neutral expectation of the two children of node [j] *)
Definition continuation (V : list R) (j : nat) : R :=
  disc * (p * nth (j + 1) V 0 + (1 - p) * nth j V 0).

Definition european_step (i : nat) (V : list R) : list R :=
  map (continuation V) (seq 0 (i + 1)).

Definition american_step (i : nat) (V : list R) : list R :=
  map (fun j => Rmax (continuation V j) (exercise_value (underlying i j)))
      (seq 0 (i + 1)).

(** the steps [i = n - 1] down to [0] *)
Fixpoint backward_induction (step : nat -> list R -> list R) (n : nat)
    (V : list R) : list R :=
  match n with
  | O => V
  | Datatypes.S i => backward_induction step i (step i V)
  end.

End Lattice.

Section Price.

Variables (kind : option_kind) (S K T r sigma q : R) (N : nat).

Definition dt : R := T / INR N.
Definition u : R := exp (sigma * sqrt dt).
Definition d : R := 1 / u.
Definition p : R := (exp ((r - q) * dt) - d) / (u - d).
Definition disc : R := exp (- r * dt).

Definition european_price : R :=
  nth 0 (backward_induction (european_step p disc) N
           (maturity_layer kind S K u d N)) 0.

Definition american_price : R :=
  nth 0 (backward_induction (american_step kind S K u d p disc) N
           (maturity_layer kind S K u d N)) 0.

End Price.

End Spec.

(** Either style of step, and the price it leads to: the pricer's [style]
    argument read as a flag. *)
Definition lattice_step (american : bool) (kind : Spec.option_kind)
    (S K u d p disc : R) : nat -> list R -> list R :=
  if american then Spec.american_step kind S K u d p disc
  else Spec.european_step p disc.

Definition lattice_price (american : bool) (kind : Spec.option_kind)
    (S K T r sigma q : R) (N : nat) : R :=
  if american then Spec.american_price kind S K T r sigma q N
  else Spec.european_price kind S K T r sigma q N.

(** ** Comparisons and divisions *)

Lemma Rltb_true (x y : R) : Rltb x y = true <-> x < y.
Proof. unfold Rltb. destruct (Rlt_dec x y); split; intros; try easy. Qed.

Lemma Rleb_true (x y : R) : Rleb x y = true <-> x <= y.
Proof. unfold Rleb. destruct (Rle_dec x y); split; intros; try easy. Qed.

Lemma Rleb_false (x y : R) : Rleb x y = false <-> y < x.
Proof.
  unfold Rleb. destruct (Rle_dec x y); split; intros; try easy; lra.
Qed.

Lemma between_0_1_true (p : npfloat) :
  between_0_1 p = true <-> exists x, p = Fin x /\ 0 < x < 1.
Proof.
  destruct p as [x| | |]; simpl.
  - rewrite andb_true_iff, !Rltb_true. split.
    + intros H. now exists x.
    + intros (y & [= ->] & H). exact H.
  - split; [discriminate | now intros (y & [=] & _)].
  - split; [discriminate | now intros (y & [=] & _)].
  - split; [discriminate | now intros (y & [=] & _)].
Qed.

Lemma py_truediv_ok (x : R) (n : Z) :
  n <> 0%Z -> py_truediv x n = Ok (x / IZR n).
Proof.
  intros H. unfold py_truediv. now destruct (Z.eqb_spec n 0).
Qed.

Lemma py_div_ok (x y : R) : y <> 0 -> py_div x y = Ok (x / y).
Proof. intros H. unfold py_div. now destruct (Req_dec_T y 0). Qed.

Lemma py_div_inv (x y z : R) : py_div x y = Ok z -> y <> 0 /\ z = x / y.
Proof.
  unfold py_div. destruct (Req_dec_T y 0); [discriminate|].
  intros [= <-]. now split.
Qed.

Lemma np_div_fin (x y : R) : y <> 0 -> np_div x y = Fin (x / y).
Proof. intros H. unfold np_div. now destruct (Req_dec_T y 0). Qed.

Lemma np_div_zero (x : R) : between_0_1 (np_div x 0) = false.
Proof.
  unfold np_div. destruct (Req_dec_T 0 0) as [_|H]; [|now elim H].
  destruct (Rltb 0 x); [reflexivity|]. now destruct (Rltb x 0).
Qed.

Lemma np_div_inv (x y z : R) : np_div x y = Fin z -> y <> 0 /\ z = x / y.
Proof.
  unfold np_div. destruct (Req_dec_T y 0).
  - destruct (Rltb 0 x); [discriminate|]. destruct (Rltb x 0); discriminate.
  - intros [= <-]. now split.
Qed.

(** ** The lattice parameters *)

Lemma up_factor_pos (sigma dt : R) : 0 < up_factor sigma dt.
Proof. apply exp_pos. Qed.

Lemma down_factor_exp (sigma dt : R) :
  down_factor sigma dt = exp (- (sigma * sqrt dt)).
Proof.
  unfold down_factor, up_factor. rewrite exp_Ropp. unfold Rdiv. lra.
Qed.

(** The risk-neutral expectation of the one-step growth of the underlying is
    the carry [exp ((r - q) * dt)]. *)
Lemma risk_neutral_mean (r sigma q dt p : R) :
  risk_neutral_p r sigma q dt = Fin p ->
  p * up_factor sigma dt + (1 - p) * down_factor sigma dt
  = exp ((r - q) * dt).
Proof.
  unfold risk_neutral_p. intros H.
  apply np_div_inv in H as [Hud ->]. field. exact Hud.
Qed.

(** A sufficient condition for a probability strictly inside the unit
    interval: the carry over one step lies strictly between the two moves. *)
Lemma risk_neutral_p_between (r sigma q dt : R) :
  0 < dt -> Rabs (r - q) * sqrt dt < sigma ->
  exists p, risk_neutral_p r sigma q dt = Fin p /\ 0 < p < 1.
Proof.
  intros Hdt Hc.
  assert (Hs : 0 < sqrt dt) by now apply sqrt_lt_R0.
  assert (Hsq : sqrt dt * sqrt dt = dt) by (apply sqrt_sqrt; lra).
  assert (Habs : - Rabs (r - q) <= r - q <= Rabs (r - q)).
  { split; [|apply Rle_abs].
    pose proof (Rle_abs (- (r - q))) as H. rewrite Rabs_Ropp in H. lra. }
  assert (Hlo : - (sigma * sqrt dt) < (r - q) * dt) by nra.
  assert (Hhi : (r - q) * dt < sigma * sqrt dt) by nra.
  apply exp_increasing in Hlo. apply exp_increasing in Hhi.
  rewrite <- down_factor_exp in Hlo. fold (up_factor sigma dt) in Hhi.
  set (u := up_factor sigma dt) in *. set (d := down_factor sigma dt) in *.
  set (g := exp ((r - q) * dt)) in *.
  assert (Hud : u - d <> 0) by lra.
  exists ((g - d) / (u - d)). split.
  - unfold risk_neutral_p. fold u d g. now apply np_div_fin.
  - split.
    + apply Rdiv_lt_0_compat; lra.
    + apply Rmult_lt_reg_r with (u - d); [lra|].
      unfold Rdiv. rewrite Rmult_assoc, Rinv_l by exact Hud. lra.
Qed.

(** ** Arrays as functions of the index *)

Lemma list_as_map_nth (l : list R) :
  l = map (fun j => nth j l 0) (seq 0 (List.length l)).
Proof.
  induction l as [|a l IH]; [reflexivity|].
  cbn [List.length seq map nth]. f_equal.
  rewrite <- seq_shift, map_map. exact IH.
Qed.

Lemma slice_tail (n : nat) (V : list R) :
  List.length V = (n + 1)%nat ->
  slice 1 (n + 1) V = map (fun j => nth (j + 1) V 0) (seq 0 n).
Proof.
  intros H. unfold slice. rewrite <- H, firstn_all.
  destruct V as [|a V]; [simpl in H; lia|].
  cbn [skipn]. simpl in H.
  rewrite (list_as_map_nth V) at 1.
  replace (List.length V) with n by lia.
  apply map_ext. intros j. now rewrite Nat.add_1_r.
Qed.

Lemma slice_front (n : nat) (V : list R) :
  List.length V = (n + 1)%nat ->
  slice 0 n V = map (fun j => nth j V 0) (seq 0 n).
Proof.
  intros H. unfold slice. cbn [skipn].
  rewrite (list_as_map_nth (firstn n V)).
  rewrite length_firstn, H, Nat.min_l by lia.
  apply map_ext_in. intros j Hj. apply in_seq in Hj.
  rewrite nth_firstn. destruct (Nat.ltb_spec j n); [reflexivity | lia].
Qed.

Lemma np_zip_map (f : R -> R -> R) (g h : nat -> R) (l : list nat) :
  np_zip f (map g l) (map h l) = Ok (map (fun j => f (g j) (h j)) l).
Proof.
  unfold np_zip. rewrite !length_map, Nat.eqb_refl. f_equal.
  induction l as [|j l IH]; [reflexivity|]. simpl. now rewrite IH.
Qed.

Lemma np_scale_map (c : R) (g : nat -> R) (l : list nat) :
  np_scale c (map g l) = map (fun j => c * g j) l.
Proof. unfold np_scale. apply map_map. Qed.

Lemma range_succ (i : nat) : range (Z.of_nat i + 1) = seq 0 (i + 1).
Proof. unfold range. f_equal. lia. Qed.

Lemma range_down_succ (n : nat) :
  rev (seq 0 (Datatypes.S n)) = n :: rev (seq 0 n).
Proof. rewrite seq_S, rev_app_distr. reflexivity. Qed.

Lemma node_price_pow (S u d : R) (i j : nat) :
  (j <= i)%nat ->
  node_price S u d (Z.of_nat i) j = Spec.underlying S u d i j.
Proof.
  intros H. unfold node_price, Spec.underlying, py_pow.
  rewrite <- Nat2Z.inj_sub by exact H. now rewrite <- !pow_powerRZ.
Qed.

Lemma payoff_spec (K : R) (option : string) (prices : list R) :
  payoff K option prices
  = map (Spec.exercise_value (Spec.kind_of option) K) prices.
Proof.
  unfold payoff, Spec.kind_of, Spec.exercise_value.
  now destruct (option =? "call")%string.
Qed.

Lemma kind_of_name (kind : Spec.option_kind) :
  Spec.kind_of (Spec.kind_name kind) = kind.
Proof. now destruct kind. Qed.

(** The layer of exercise values at step [i], as the pricer computes it. *)
Lemma exercise_layer (S K u d : R) (option : string) (i : nat) :
  payoff K option (map (node_price S u d (Z.of_nat i)) (seq 0 (i + 1)))
  = map (fun j => Spec.exercise_value (Spec.kind_of option) K
                    (Spec.underlying S u d i j)) (seq 0 (i + 1)).
Proof.
  rewrite payoff_spec, map_map. apply map_ext_in. intros j Hj.
  apply in_seq in Hj. rewrite node_price_pow by lia. reflexivity.
Qed.

(** ** One backward step *)

Section Step.

Variables (S K : R) (option style : string) (u d p disc : R).

(** On a layer of [i + 2] values both slices are whole and the
    continuation values are the discounted expectations. *)
Lemma continuation_layer (i : nat) (V : list R) :
  List.length V = (i + 2)%nat ->
  bind (np_zip Rplus (np_scale p (slice 1 (i + 2) V))
                     (np_scale (1 - p) (slice 0 (i + 1) V)))
       (fun W => Ok (np_scale disc W))
  = Ok (Spec.european_step p disc i V).
Proof.
  intros H.
  replace (i + 2)%nat with ((i + 1) + 1)%nat in * by lia.
  rewrite slice_tail, slice_front by exact H.
  rewrite !np_scale_map, np_zip_map. cbn [bind].
  rewrite np_scale_map. reflexivity.
Qed.

Lemma backward_step_european (i : nat) (V : list R) :
  style <> "amer"%string ->
  List.length V = (i + 2)%nat ->
  backward_step S K option style u d p disc i V
  = Ok (Spec.european_step p disc i V).
Proof.
  intros Hs H. unfold backward_step.
  apply String.eqb_neq in Hs. rewrite Hs.
  now apply continuation_layer.
Qed.

Lemma backward_step_american (i : nat) (V : list R) :
  List.length V = (i + 2)%nat ->
  backward_step S K option "amer" u d p disc i V
  = Ok (Spec.american_step (Spec.kind_of option) S K u d p disc i V).
Proof.
  intros H. unfold backward_step.
  pose proof (continuation_layer i V H) as Hc.
  destruct (np_zip Rplus _ _) as [W|e]; [|discriminate].
  cbn [bind] in Hc |- *. injection Hc as ->.
  rewrite String.eqb_refl, range_succ, exercise_layer.
  unfold Spec.european_step. rewrite np_zip_map. reflexivity.
Qed.

Lemma length_european_step (i : nat) (V : list R) :
  List.length (Spec.european_step p disc i V) = (i + 1)%nat.
Proof. unfold Spec.european_step. now rewrite length_map, length_seq. Qed.

Lemma length_american_step (kind : Spec.option_kind) (i : nat) (V : list R) :
  List.length (Spec.american_step kind S K u d p disc i V) = (i + 1)%nat.
Proof. unfold Spec.american_step. now rewrite length_map, length_seq. Qed.

(** Whatever the strings [option] and [style], a step on a layer of
    [i + 2] values yields a layer of [i + 1] values. *)
Lemma backward_step_ok (i : nat) (V : list R) :
  List.length V = (i + 2)%nat ->
  exists V', backward_step S K option style u d p disc i V = Ok V'
             /\ List.length V' = (i + 1)%nat.
Proof.
  intros H. destruct (String.eqb_spec style "amer") as [->|Hs].
  - eexists. split; [now apply backward_step_american|].
    apply length_american_step.
  - eexists. split; [now apply backward_step_european|].
    apply length_european_step.
Qed.

End Step.

(** ** The backward loop *)

Section Loop.

Variables (S K : R) (option style : string) (u d p disc : R).

Lemma length_backward_induction (step : nat -> list R -> list R) :
  (forall i V, List.length (step i V) = (i + 1)%nat) ->
  forall n V, List.length V = (n + 1)%nat ->
  List.length (Spec.backward_induction step n V) = 1%nat.
Proof.
  intros Hstep n. induction n as [|n IH]; intros V H; [exact H|].
  cbn [Spec.backward_induction]. apply IH, Hstep.
Qed.

Lemma backward_loop_european (n : nat) :
  style <> "amer"%string ->
  forall V, List.length V = (n + 1)%nat ->
  backward_loop S K option style u d p disc (rev (seq 0 n)) V
  = Ok (Spec.backward_induction (Spec.european_step p disc) n V).
Proof.
  intros Hs. induction n as [|n IH]; intros V H; [reflexivity|].
  rewrite range_down_succ. cbn [backward_loop Spec.backward_induction].
  rewrite backward_step_european by (trivial; lia). cbn [bind].
  apply IH, length_european_step.
Qed.

Lemma backward_loop_american (n : nat) (V : list R) :
  style = "amer"%string ->
  List.length V = (n + 1)%nat ->
  backward_loop S K option style u d p disc (rev (seq 0 n)) V
  = Ok (Spec.backward_induction
          (Spec.american_step (Spec.kind_of option) S K u d p disc) n V).
Proof.
  intros ->. revert V. induction n as [|n IH]; intros V H; [reflexivity|].
  rewrite range_down_succ. cbn [backward_loop Spec.backward_induction].
  rewrite backward_step_american by lia. cbn [bind].
  apply IH, length_american_step.
Qed.

(** Loop invariant: iteration [i] starts on a layer of exactly [i + 2]
    values, so [V[1:i+2]] and [V[0:i+1]] stay inside it. *)
Lemma visited_layers_in_bounds (n : nat) (V : list R) :
  List.length V = (n + 1)%nat ->
  Forall (fun iV => List.length (snd iV) = (fst iV + 2)%nat)
         (visited_layers style option S K u d p disc (rev (seq 0 n)) V).
Proof.
  revert V. induction n as [|n IH]; intros V H; [constructor|].
  rewrite range_down_succ. cbn [visited_layers]. constructor.
  - cbn [fst snd]. lia.
  - destruct (backward_step_ok S K option style u d p disc n V)
      as (V' & -> & HV'); [lia|]. now apply IH.
Qed.

End Loop.

(** ** The pricer on a valid configuration *)

Lemma IZR_to_nat (N : Z) : (0 <= N)%Z -> INR (Z.to_nat N) = IZR N.
Proof. intros H. now rewrite INR_IZR_INZ, Z2Nat.id. Qed.

Lemma maturity_layer_spec (S K u d : R) (option : string) (N : Z) :
  (0 <= N)%Z ->
  payoff K option (map (node_price S u d N) (range (N + 1)))
  = Spec.maturity_layer (Spec.kind_of option) S K u d (Z.to_nat N).
Proof.
  intros H. rewrite <- (Z2Nat.id N) at 1 2 by exact H.
  rewrite range_succ. apply exercise_layer.
Qed.

Lemma length_maturity_layer (kind : Spec.option_kind) (S K u d : R) (n : nat) :
  List.length (Spec.maturity_layer kind S K u d n) = (n + 1)%nat.
Proof. unfold Spec.maturity_layer. now rewrite length_map, length_seq. Qed.

Section Valid.

Variables (S K T r sigma : R) (N : Z) (option style : string) (q : R).
Hypothesis HT : 0 < T.
Hypothesis HN : (1 <= N)%Z.

Lemma step_length_pos : 0 < T / IZR N.
Proof.
  apply Rdiv_lt_0_compat; [exact HT|]. apply IZR_lt. lia.
Qed.

(** Past the two checks the pricer is the loop on the maturity layer. *)
Lemma binomial_price_valid (p : R) :
  risk_neutral_p r sigma q (T / IZR N) = Fin p -> 0 < p < 1 ->
  binomial_price S K T r sigma N option style q
  = (V <- backward_loop S K option style
            (up_factor sigma (T / IZR N)) (down_factor sigma (T / IZR N))
            p (exp (- r * (T / IZR N))) (rev (seq 0 (Z.to_nat N)))
            (Spec.maturity_layer (Spec.kind_of option) S K
               (up_factor sigma (T / IZR N))
               (down_factor sigma (T / IZR N)) (Z.to_nat N)) ;;
     item0 V).
Proof.
  intros Hp Hr. unfold binomial_price.
  rewrite py_truediv_ok by lia. cbn [bind].
  pose proof step_length_pos as Hdt.
  apply Rleb_false in Hdt. rewrite Hdt.
  assert (Hb : between_0_1 (risk_neutral_p r sigma q (T / IZR N)) = true).
  { apply between_0_1_true. now exists p. }
  rewrite Hb. cbn [negb]. rewrite Hp.
  rewrite maturity_layer_spec by lia. reflexivity.
Qed.

Lemma spec_parameters (p : R) :
  risk_neutral_p r sigma q (T / IZR N) = Fin p ->
  Spec.dt T (Z.to_nat N) = T / IZR N
  /\ Spec.u T sigma (Z.to_nat N) = up_factor sigma (T / IZR N)
  /\ Spec.d T sigma (Z.to_nat N) = down_factor sigma (T / IZR N)
  /\ Spec.p T r sigma q (Z.to_nat N) = p
  /\ Spec.disc T r (Z.to_nat N) = exp (- r * (T / IZR N)).
Proof.
  intros Hp.
  assert (Hdt : Spec.dt T (Z.to_nat N) = T / IZR N).
  { unfold Spec.dt. now rewrite IZR_to_nat by lia. }
  unfold Spec.p, Spec.disc, Spec.d, Spec.u. rewrite !Hdt.
  repeat split; try reflexivity.
  unfold risk_neutral_p in Hp. apply np_div_inv in Hp as [_ ->].
  reflexivity.
Qed.

Lemma binomial_price_european_spec :
  style <> "amer"%string ->
  valid_probability (risk_neutral_p r sigma q (T / IZR N)) ->
  binomial_price S K T r sigma N option style q
  = Ok (Spec.european_price (Spec.kind_of option) S K T r sigma q
          (Z.to_nat N)).
Proof.
  intros Hs (p & Hp & Hr).
  rewrite (binomial_price_valid p Hp Hr).
  rewrite backward_loop_european
    by (trivial; apply length_maturity_layer).
  destruct (spec_parameters p Hp) as (Hdt & Hu & Hd & Hpp & Hdisc).
  unfold Spec.european_price. rewrite Hu, Hd, Hpp, Hdisc. cbn [bind].
  set (W := Spec.backward_induction _ _ _).
  assert (HW : List.length W = 1%nat).
  { apply length_backward_induction.
    - intros i V. apply length_european_step.
    - apply length_maturity_layer. }
  destruct W as [|v W]; [discriminate|]. reflexivity.
Qed.

Lemma binomial_price_american_spec :
  style = "amer"%string ->
  valid_probability (risk_neutral_p r sigma q (T / IZR N)) ->
  binomial_price S K T r sigma N option style q
  = Ok (Spec.american_price (Spec.kind_of option) S K T r sigma q
          (Z.to_nat N)).
Proof.
  intros Hs (p & Hp & Hr).
  rewrite (binomial_price_valid p Hp Hr).
  rewrite backward_loop_american
    by (trivial; apply length_maturity_layer).
  destruct (spec_parameters p Hp) as (Hdt & Hu & Hd & Hpp & Hdisc).
  unfold Spec.american_price. rewrite Hu, Hd, Hpp, Hdisc. cbn [bind].
  set (W := Spec.backward_induction _ _ _).
  assert (HW : List.length W = 1%nat).
  { apply length_backward_induction.
    - intros i V. apply length_american_step.
    - apply length_maturity_layer. }
  destruct W as [|v W]; [discriminate|]. reflexivity.
Qed.

Lemma binomial_price_ok :
  valid_probability (risk_neutral_p r sigma q (T / IZR N)) ->
  exists v, binomial_price S K T r sigma N option style q = Ok v.
Proof.
  intros Hv. destruct (String.eqb_spec style "amer") as [Hs|Hs].
  - eexists. now apply binomial_price_american_spec.
  - eexists. now apply binomial_price_european_spec.
Qed.

Lemma price_layers_in_bounds :
  Forall (fun iV => List.length (snd iV) = (fst iV + 2)%nat)
         (price_layers S K T r sigma N option style q).
Proof.
  unfold price_layers. rewrite py_truediv_ok by lia.
  destruct (risk_neutral_p r sigma q (T / IZR N)); try constructor.
  rewrite maturity_layer_spec by lia.
  apply visited_layers_in_bounds, length_maturity_layer.
Qed.

End Valid.

(** ** Properties of the backward induction *)

Lemma exp_pow (x : R) (n : nat) : exp x ^ n = exp (INR n * x).
Proof.
  induction n as [|n IH].
  - simpl. now rewrite Rmult_0_l, exp_0.
  - rewrite S_INR. cbn [pow]. rewrite IH, <- exp_plus. f_equal. ring.
Qed.

Lemma nth_map_seq (f : nat -> R) (n j : nat) :
  (j < n)%nat -> nth j (map f (seq 0 n)) 0 = f j.
Proof.
  intros H.
  rewrite (nth_indep _ 0 (f O)) by now rewrite length_map, length_seq.
  rewrite map_nth, seq_nth by exact H. reflexivity.
Qed.

Section Induction.

Variables (S K u d p disc : R).

Lemma nth_european_step (i j : nat) (V : list R) :
  (j <= i)%nat ->
  nth j (Spec.european_step p disc i V) 0 = Spec.continuation p disc V j.
Proof.
  intros H. unfold Spec.european_step. apply nth_map_seq. lia.
Qed.

Lemma nth_american_step (kind : Spec.option_kind) (i j : nat) (V : list R) :
  (j <= i)%nat ->
  nth j (Spec.american_step kind S K u d p disc i V) 0
  = Rmax (Spec.continuation p disc V j)
         (Spec.exercise_value kind K (Spec.underlying S u d i j)).
Proof.
  intros H. unfold Spec.american_step.
  rewrite nth_map_seq by lia. reflexivity.
Qed.

Lemma nth_maturity_layer (kind : Spec.option_kind) (n j : nat) :
  (j <= n)%nat ->
  nth j (Spec.maturity_layer kind S K u d n) 0
  = Spec.exercise_value kind K (Spec.underlying S u d n j).
Proof.
  intros H. unfold Spec.maturity_layer.
  rewrite nth_map_seq by lia. reflexivity.
Qed.

Lemma underlying_up (i j : nat) :
  Spec.underlying S u d (i + 1) (j + 1) = u * Spec.underlying S u d i j.
Proof.
  unfold Spec.underlying.
  replace (i + 1 - (j + 1))%nat with (i - j)%nat by lia.
  rewrite Nat.add_1_r. cbn [pow]. ring.
Qed.

Lemma underlying_down (i j : nat) :
  (j <= i)%nat ->
  Spec.underlying S u d (i + 1) j = d * Spec.underlying S u d i j.
Proof.
  intros H. unfold Spec.underlying.
  replace (i + 1 - j)%nat with (Datatypes.S (i - j)) by lia.
  cbn [pow]. ring.
Qed.

(** Linearity: a difference of two layers that is "forward minus strike"
    stays so through the European steps, the forward discounted by
    [disc * (p * u + (1 - p) * d)] and the strike by [disc] at each step. *)
Lemma parity_induction (n : nat) :
  forall (VC VP : list R) (a b : R),
    (forall j, (j <= n)%nat ->
       nth j VC 0 - nth j VP 0 = Spec.underlying S u d n j * a - K * b) ->
    nth 0 (Spec.backward_induction (Spec.european_step p disc) n VC) 0
    - nth 0 (Spec.backward_induction (Spec.european_step p disc) n VP) 0
    = S * a * (disc * (p * u + (1 - p) * d)) ^ n - K * b * disc ^ n.
Proof.
  induction n as [|n IH]; intros VC VP a b H.
  - cbn [Spec.backward_induction pow]. rewrite (H O) by lia.
    unfold Spec.underlying. cbn [pow Nat.sub]. ring.
  - cbn [Spec.backward_induction].
    rewrite (IH _ _ (a * (disc * (p * u + (1 - p) * d))) (b * disc)).
    + cbn [pow]. ring.
    + intros j Hj. rewrite !nth_european_step by exact Hj.
      unfold Spec.continuation.
      pose proof (H (j + 1)%nat ltac:(lia)) as H1.
      pose proof (H j ltac:(lia)) as H0.
      replace (Datatypes.S n) with (n + 1)%nat in H1, H0 by lia.
      rewrite underlying_up in H1. rewrite underlying_down in H0 by exact Hj.
      set (x := Spec.underlying S u d n j) in *.
      replace (disc * (p * nth (j + 1) VC 0 + (1 - p) * nth j VC 0)
               - disc * (p * nth (j + 1) VP 0 + (1 - p) * nth j VP 0))
        with (disc * (p * (nth (j + 1) VC 0 - nth (j + 1) VP 0)
                      + (1 - p) * (nth j VC 0 - nth j VP 0))) by ring.
      rewrite H1, H0. ring.
Qed.

Lemma continuation_mono (VE VA : list R) (j : nat) :
  0 <= disc -> 0 <= p <= 1 ->
  nth (j + 1) VE 0 <= nth (j + 1) VA 0 ->
  nth j VE 0 <= nth j VA 0 ->
  Spec.continuation p disc VE j <= Spec.continuation p disc VA j.
Proof.
  intros Hd Hp H1 H0. unfold Spec.continuation.
  apply Rmult_le_compat_l; [exact Hd|].
  apply Rplus_le_compat; apply Rmult_le_compat_l; lra.
Qed.

(** Monotonicity: a layer that dominates keeps dominating, and taking the
    maximum with the exercise value only raises it. *)
Lemma american_dominates_induction (kind : Spec.option_kind) (n : nat) :
  0 <= disc -> 0 <= p <= 1 ->
  forall VE VA : list R,
    (forall j, (j <= n)%nat -> nth j VE 0 <= nth j VA 0) ->
    nth 0 (Spec.backward_induction (Spec.european_step p disc) n VE) 0
    <= nth 0 (Spec.backward_induction
                (Spec.american_step kind S K u d p disc) n VA) 0.
Proof.
  intros Hd Hp. induction n as [|n IH]; intros VE VA H.
  - cbn [Spec.backward_induction]. apply H. lia.
  - cbn [Spec.backward_induction]. apply IH. intros j Hj.
    rewrite nth_european_step, nth_american_step by exact Hj.
    eapply Rle_trans; [|apply Rmax_l].
    apply continuation_mono; trivial; apply H; lia.
Qed.

End Induction.

Lemma call_minus_put (K x : R) :
  Spec.exercise_value Spec.Call K x - Spec.exercise_value Spec.Put K x
  = x - K.
Proof.
  unfold Spec.exercise_value, Rmax.
  destruct (Rle_dec (x - K) 0), (Rle_dec (K - x) 0); lra.
Qed.

(** ** What a returned price tells about the input *)

Lemma binomial_price_inv (S K T r sigma : R) (N : Z) (option style : string)
    (q v : R) :
  binomial_price S K T r sigma N option style q = Ok v ->
  0 < T /\ (1 <= N)%Z
  /\ valid_probability (risk_neutral_p r sigma q (T / IZR N)).
Proof.
  unfold binomial_price, py_truediv.
  destruct (Z.eqb_spec N 0) as [|HN0]; [discriminate|]. cbn [bind].
  destruct (Rleb (T / IZR N) 0) eqn:Hdt; [discriminate|].
  apply Rleb_false in Hdt.
  destruct (between_0_1 (risk_neutral_p r sigma q (T / IZR N))) eqn:Hb;
    [|discriminate].
  apply between_0_1_true in Hb. destruct Hb as (p & Hp & Hr).
  cbn [negb]. rewrite Hp. intros H.
  assert (HN : (1 <= N)%Z).
  { destruct (Z_lt_le_dec N 1) as [Hneg|]; [exfalso|assumption].
    unfold range, range_down in H.
    replace (Z.to_nat (N + 1)) with O in H by lia.
    replace (Z.to_nat N) with O in H by lia.
    unfold payoff in H. cbn [seq map rev backward_loop] in H.
    destruct (option =? "call")%string; discriminate. }
  split; [|split; [exact HN | now exists p]].
  assert (HNpos : 0 < IZR N) by (apply IZR_lt; lia).
  replace T with (T / IZR N * IZR N) by (field; lra).
  now apply Rmult_lt_0_compat.
Qed.

(** ** Valid and invalid configurations *)

Lemma valid_probability_small_step (r sigma q dt : R) :
  0 < dt <= 1 -> Rabs (r - q) < sigma ->
  valid_probability (risk_neutral_p r sigma q dt).
Proof.
  intros [Hdt H1] Hc. apply risk_neutral_p_between; [exact Hdt|].
  assert (Hs : 0 < sqrt dt <= 1).
  { split; [now apply sqrt_lt_R0|].
    rewrite <- sqrt_1. apply sqrt_le_1_alt. exact H1. }
  pose proof (Rabs_pos (r - q)). nra.
Qed.

Lemma between_0_1_false (p : npfloat) :
  between_0_1 p = false <-> ~ valid_probability p.
Proof.
  unfold valid_probability. rewrite <- between_0_1_true.
  now destruct (between_0_1 p).
Qed.

(** The first check: a step length that exists and is not positive. *)
Lemma binomial_price_invalid_configuration (S K T r sigma : R) (N : Z)
    (option style : string) (q : R) :
  N <> 0%Z -> T / IZR N <= 0 ->
  binomial_price S K T r sigma N option style q = Raise InvalidConfiguration.
Proof.
  intros HN Hdt. unfold binomial_price.
  rewrite py_truediv_ok by exact HN. cbn [bind].
  apply Rleb_true in Hdt. now rewrite Hdt.
Qed.

(** A step count of zero never reaches the check. *)
Lemma binomial_price_zero_steps (S K T r sigma : R)
    (option style : string) (q : R) :
  binomial_price S K T r sigma 0 option style q = Raise ZeroDivisionError.
Proof. reflexivity. Qed.

(** A negative expiry over a negative step count passes the check; the tree
    is then empty. *)
Lemma binomial_price_both_negative (S K T r sigma : R) (N : Z)
    (option style : string) (q : R) :
  T < 0 -> (N < 0)%Z ->
  valid_probability (risk_neutral_p r sigma q (T / IZR N)) ->
  binomial_price S K T r sigma N option style q = Raise IndexError.
Proof.
  intros HT HN (p & Hp & Hr).
  assert (HNR : IZR N < 0) by (apply IZR_lt; lia).
  assert (Hdt : 0 < T / IZR N).
  { replace (T / IZR N) with ((- T) / (- IZR N)) by (field; lra).
    apply Rdiv_lt_0_compat; lra. }
  unfold binomial_price. rewrite py_truediv_ok by lia. cbn [bind].
  apply Rleb_false in Hdt. rewrite Hdt.
  assert (Hb : between_0_1 (risk_neutral_p r sigma q (T / IZR N)) = true).
  { apply between_0_1_true. now exists p. }
  rewrite Hb, Hp. cbn [negb]. unfold range, range_down, payoff.
  replace (Z.to_nat (N + 1)) with O by lia.
  replace (Z.to_nat N) with O by lia.
  cbn [seq map rev backward_loop].
  now destruct (option =? "call")%string.
Qed.

(** The second check. *)
Lemma binomial_price_arbitrage (S K T r sigma : R) (N : Z)
    (option style : string) (q : R) :
  N <> 0%Z -> 0 < T / IZR N ->
  ~ valid_probability (risk_neutral_p r sigma q (T / IZR N)) ->
  binomial_price S K T r sigma N option style q
  = Raise (ArbitrageViolation (risk_neutral_p r sigma q (T / IZR N))).
Proof.
  intros HN Hdt Hp. unfold binomial_price.
  rewrite py_truediv_ok by exact HN. cbn [bind].
  apply Rleb_false in Hdt. rewrite Hdt.
  apply between_0_1_false in Hp. now rewrite Hp.
Qed.

Lemma zero_volatility_factors (dt : R) :
  up_factor 0 dt = 1 /\ down_factor 0 dt = 1.
Proof.
  unfold down_factor, up_factor. rewrite Rmult_0_l, exp_0. split; lra.
Qed.

Lemma zero_volatility_probability (r q dt : R) :
  ~ valid_probability (risk_neutral_p r 0 q dt).
Proof.
  apply between_0_1_false. unfold risk_neutral_p.
  destruct (zero_volatility_factors dt) as [-> ->].
  replace (1 - 1) with 0 by lra. apply np_div_zero.
Qed.

(** The parameters of the demonstration run, at any lattice no coarser than
    one step per year. *)
Lemma demo_probability (T : R) (N : Z) :
  0 < T <= 1 -> (1 <= N)%Z ->
  valid_probability (risk_neutral_p (4/100) (2/10) (1/100) (T / IZR N)).
Proof.
  intros HT HN. apply valid_probability_small_step.
  - assert (H1 : 1 <= IZR N) by (apply IZR_le; lia).
    split; [apply Rdiv_lt_0_compat; lra|].
    apply Rmult_le_reg_r with (IZR N); [lra|].
    unfold Rdiv. rewrite Rmult_assoc, Rinv_l by lra. nra.
  - unfold Rabs. destruct (Rcase_abs _); lra.
Qed.

(** ** The Greeks wrapper *)

Lemma bindM_call {B : Type} (S K T r sigma : R) (N : Z)
    (option style : string) (q : R) (k : R -> M B) (log : list call) :
  bindM (call_binomial_price S K T r sigma N option style q) k log
  = match binomial_price S K T r sigma N option style q with
    | Ok v => k v (log ++ [Call_ S K T r sigma N option style q])
    | Raise e => (Raise e, log ++ [Call_ S K T r sigma N option style q])
    end.
Proof.
  unfold bindM, call_binomial_price. now destruct binomial_price.
Qed.

Lemma bindM_lift {A B : Type} (m : result A) (k : A -> M B)
    (log : list call) :
  bindM (lift m) k log
  = match m with
    | Ok v => k v log
    | Raise e => (Raise e, log)
    end.
Proof. unfold bindM, lift. now destruct m. Qed.

(** One more call, or one more division, of a run that has not failed. *)
Ltac split_outcome v E :=
  match goal with
  | |- context [match ?c with Ok _ => _ | Raise _ => _ end] =>
      destruct c as [v|] eqn:E; [|discriminate]
  end.

Tactic Notation "next_call" ident(v) ident(E) :=
  rewrite bindM_call; split_outcome v E.

Tactic Notation "next_div" ident(v) ident(E) :=
  rewrite bindM_lift; split_outcome v E.

Section Greeks.

Variables (S K T r sigma : R) (N : Z) (option style : string).
Variables (q h_S h_sigma h_T h_r : R).

(** A run that returns has called the pricer nine times, in this order,
    and combined the nine prices by these formulas. *)
Lemma greeks_binomial_inv (log log' : list call) (g : GreeksResult) :
  greeks_binomial S K T r sigma N option style q h_S h_sigma h_T h_r log
  = (Ok g, log') ->
  exists price0 up dn vp vm sp sm rp rm,
    binomial_price S K T r sigma N option style q = Ok price0
    /\ binomial_price (S + h_S) K T r sigma N option style q = Ok up
    /\ binomial_price (S - h_S) K T r sigma N option style q = Ok dn
    /\ binomial_price S K (T + h_T) r sigma N option style q = Ok vp
    /\ binomial_price S K (Rmax (T - h_T) (1 / 1000000)) r sigma N
          option style q = Ok vm
    /\ binomial_price S K T r (sigma + h_sigma) N option style q = Ok sp
    /\ binomial_price S K T r (sigma - h_sigma) N option style q = Ok sm
    /\ binomial_price S K T (r + h_r) sigma N option style q = Ok rp
    /\ binomial_price S K T (r - h_r) sigma N option style q = Ok rm
    /\ g = {| price := price0;
              delta := (up - dn) / (2 * h_S);
              gamma := (up - 2 * price0 + dn) / py_pow h_S 2;
              theta := (vp - vm) / (2 * h_T) * (-1);
              vega := (sp - sm) / (2 * h_sigma);
              rho := (rp - rm) / (2 * h_r) |}
    /\ log' = log ++
         [Call_ S K T r sigma N option style q;
          Call_ (S + h_S) K T r sigma N option style q;
          Call_ (S - h_S) K T r sigma N option style q;
          Call_ S K (T + h_T) r sigma N option style q;
          Call_ S K (Rmax (T - h_T) (1 / 1000000)) r sigma N option style q;
          Call_ S K T r (sigma + h_sigma) N option style q;
          Call_ S K T r (sigma - h_sigma) N option style q;
          Call_ S K T (r + h_r) sigma N option style q;
          Call_ S K T (r - h_r) sigma N option style q].
Proof.
  unfold greeks_binomial.
  next_call price0 E0. next_call up E1. next_call dn E2.
  next_div delta0 D1. next_div gamma0 D2.
  cbv zeta.
  next_call vp E3. next_call vm E4. next_div theta0 D3.
  next_call sp E5. next_call sm E6. next_div vega0 D4.
  next_call rp E7. next_call rm E8. next_div rho0 D5.
  unfold ret. intros [= <- <-].
  apply py_div_inv in D1 as [_ ->], D2 as [_ ->], D3 as [_ ->],
    D4 as [_ ->], D5 as [_ ->].
  exists price0, up, dn, vp, vm, sp, sm, rp, rm.
  repeat (split; [reflexivity|]).
  rewrite <- !app_assoc. reflexivity.
Qed.

End Greeks.

Ltac log_done := cbn; split; [lia | repeat constructor].

Ltac either_outcome :=
  match goal with
  | |- context [match ?c with Ok _ => _ | Raise _ => _ end] =>
      destruct c; [|log_done]
  end.

Ltac either_call := rewrite bindM_call; either_outcome.
Ltac either_div := rewrite bindM_lift; either_outcome.

(** Whatever the outcome, a run calls the pricer at least once and at most
    nine times, always with the step count it was given. *)
Lemma greeks_calls_bounds (S K T r sigma : R) (N : Z) (option style : string)
    (q h_S h_sigma h_T h_r : R) :
  (1 <= List.length
          (greeks_calls S K T r sigma N option style q h_S h_sigma h_T h_r)
   <= 9)%nat
  /\ Forall (fun c => call_N c = N)
       (greeks_calls S K T r sigma N option style q h_S h_sigma h_T h_r).
Proof.
  unfold greeks_calls, greeks_binomial.
  either_call. either_call. either_call. either_div. either_div.
  cbv zeta.
  either_call. either_call. either_div.
  either_call. either_call. either_div.
  either_call. either_call. either_div.
  log_done.
Qed.

Section GreeksSucceeds.

Variables (S K T r sigma : R) (N : Z) (option style : string).
Variables (q h_S h_sigma h_T h_r : R).
Hypothesis HN : (1 <= N)%Z.
Hypothesis HT : 0 < T.
Hypothesis HTp : T + h_T <= 1.
Hypothesis HhS : 0 < h_S.
Hypothesis Hhsigma : 0 < h_sigma.
Hypothesis HhT : 0 < h_T.
Hypothesis Hhr : 0 < h_r.
Hypothesis Hcarry : Rabs (r - q) + h_r < sigma - h_sigma.

Lemma bumped_price_ok (S' T' r' sigma' : R) :
  0 < T' <= 1 -> Rabs (r' - r) <= h_r -> Rabs (sigma' - sigma) <= h_sigma ->
  exists v, binomial_price S' K T' r' sigma' N option style q = Ok v.
Proof.
  intros HT' Hr Hs. apply binomial_price_ok; [lra | exact HN |].
  apply valid_probability_small_step.
  - assert (H1 : 1 <= IZR N) by (apply IZR_le; lia).
    split; [apply Rdiv_lt_0_compat; lra|].
    apply Rmult_le_reg_r with (IZR N); [lra|].
    unfold Rdiv. rewrite Rmult_assoc, Rinv_l by lra. nra.
  - revert Hr Hs Hcarry. unfold Rabs.
    repeat destruct (Rcase_abs _); lra.
Qed.

Lemma time_floor : 0 < Rmax (T - h_T) (1 / 1000000) <= 1.
Proof. unfold Rmax. destruct (Rle_dec _ _); lra. Qed.

(** Small positive bumps around a configuration with room to spare: all
    nine prices exist and the wrapper returns. *)
Lemma greeks_binomial_succeeds :
  exists g,
    greeks_result S K T r sigma N option style q h_S h_sigma h_T h_r = Ok g.
Proof.
  assert (Hz : forall x : R, Rabs (x - x) <= h_r /\ Rabs (x - x) <= h_sigma).
  { intros x. replace (x - x) with 0 by lra. rewrite Rabs_R0. lra. }
  assert (Hup : forall x h : R, 0 < h -> Rabs (x + h - x) <= h).
  { intros x h Hh. replace (x + h - x) with h by lra.
    rewrite Rabs_pos_eq; lra. }
  assert (Hdn : forall x h : R, 0 < h -> Rabs (x - h - x) <= h).
  { intros x h Hh. replace (x - h - x) with (- h) by lra.
    rewrite Rabs_Ropp, Rabs_pos_eq; lra. }
  destruct (bumped_price_ok S T r sigma) as [price0 E0];
    [lra | apply Hz | apply Hz |].
  destruct (bumped_price_ok (S + h_S) T r sigma) as [up E1];
    [lra | apply Hz | apply Hz |].
  destruct (bumped_price_ok (S - h_S) T r sigma) as [dn E2];
    [lra | apply Hz | apply Hz |].
  destruct (bumped_price_ok S (T + h_T) r sigma) as [vp E3];
    [lra | apply Hz | apply Hz |].
  destruct (bumped_price_ok S (Rmax (T - h_T) (1 / 1000000)) r sigma)
    as [vm E4]; [apply time_floor | apply Hz | apply Hz |].
  destruct (bumped_price_ok S T r (sigma + h_sigma)) as [sp E5];
    [lra | apply Hz | now apply Hup |].
  destruct (bumped_price_ok S T r (sigma - h_sigma)) as [sm E6];
    [lra | apply Hz | now apply Hdn |].
  destruct (bumped_price_ok S T (r + h_r) sigma) as [rp E7];
    [lra | now apply Hup | apply Hz |].
  destruct (bumped_price_ok S T (r - h_r) sigma) as [rm E8];
    [lra | now apply Hdn | apply Hz |].
  unfold greeks_result, greeks_binomial.
  rewrite bindM_call, E0, bindM_call, E1, bindM_call, E2.
  rewrite bindM_lift, py_div_ok by lra.
  rewrite bindM_lift, py_div_ok by (unfold py_pow; simpl; nra).
  cbv zeta. rewrite bindM_call, E3, bindM_call, E4.
  rewrite bindM_lift, py_div_ok by lra.
  rewrite bindM_call, E5, bindM_call, E6.
  rewrite bindM_lift, py_div_ok by lra.
  rewrite bindM_call, E7, bindM_call, E8.
  rewrite bindM_lift, py_div_ok by lra.
  eexists. reflexivity.
Qed.

End GreeksSucceeds.

(** A run that returns made exactly nine calls. *)
Lemma greeks_calls_count (S K T r sigma : R) (N : Z) (option style : string)
    (q h_S h_sigma h_T h_r : R) (g : GreeksResult) :
  greeks_result S K T r sigma N option style q h_S h_sigma h_T h_r = Ok g ->
  List.length
    (greeks_calls S K T r sigma N option style q h_S h_sigma h_T h_r) = 9%nat.
Proof.
  unfold greeks_result, greeks_calls. intros H.
  destruct (greeks_binomial S K T r sigma N option style q
              h_S h_sigma h_T h_r []) as [res log] eqn:E.
  cbn [fst snd] in *. subst res.
  apply greeks_binomial_inv in E.
  destruct E as (? & ? & ? & ? & ? & ? & ? & ? & ? & E). decompose [and] E.
  subst log. reflexivity.
Qed.

(** The demonstration run, with the default bumps. *)
Lemma demo_greeks :
  exists g,
    greeks_result 100 100 (3/4) (4/100) (2/10) 400 "call" "amer" (1/100)
      (1/100) (1/100) (1/365) (1/10000) = Ok g.
Proof.
  apply greeks_binomial_succeeds; try lra; try lia.
  unfold Rabs. destruct (Rcase_abs _); lra.
Qed.

(** An expiry of one day, where the downward time bump hits the floor. *)
Lemma one_day_greeks :
  exists g,
    greeks_result 100 100 (1/365) (4/100) (2/10) 400 "put" "amer" (1/100)
      (1/100) (1/100) (1/365) (1/10000) = Ok g.
Proof.
  apply greeks_binomial_succeeds; try lra; try lia.
  unfold Rabs. destruct (Rcase_abs _); lra.
Qed.

(** When the carry over one step exceeds the up move, no probability in the
    open unit interval reproduces it. *)
Lemma carry_above_up_move (r sigma q dt : R) :
  0 <= sigma * sqrt dt < (r - q) * dt ->
  ~ valid_probability (risk_neutral_p r sigma q dt).
Proof.
  intros [H0 H1] (p & Hp & Hr).
  apply risk_neutral_mean in Hp.
  apply exp_increasing in H1. fold (up_factor sigma dt) in H1.
  assert (Hd : down_factor sigma dt <= up_factor sigma dt).
  { rewrite down_factor_exp. unfold up_factor.
    destruct (Req_dec (sigma * sqrt dt) 0) as [->|Hne].
    - rewrite Ropp_0. lra.
    - left. apply exp_increasing. lra. }
  nra.
Qed.

(** * The claims *)

(** C1. For a European-style input with [T > 0], [N >= 1] and a derived
    probability strictly between 0 and 1, [binomial_price] returns exactly
    the value of the reference backward induction: the maturity layer of
    [N + 1] exercise values, replaced at each step [i = N - 1, ..., 0] by
    the discounted expectations [disc * (p * V[j+1] + (1 - p) * V[j])],
    [j = 0..i], and the one value left at the end. *)
Theorem binomial_price_european_reference (kind : Spec.option_kind)
    (S K T r sigma : R) (N : Z) (q : R) :
  0 < T -> (1 <= N)%Z ->
  valid_probability (risk_neutral_p r sigma q (T / IZR N)) ->
  binomial_price S K T r sigma N (Spec.kind_name kind) "euro" q
  = Ok (Spec.european_price kind S K T r sigma q (Z.to_nat N)).
Proof.
  intros HT HN Hp.
  rewrite binomial_price_european_spec by (trivial; discriminate).
  now rewrite kind_of_name.
Qed.

Lemma binomial_price_european_reference_witness :
  binomial_price 100 100 (3/4) (4/100) (2/10) 400 "call" "euro" (1/100)
  = Ok (Spec.european_price Spec.Call 100 100 (3/4) (4/100) (2/10) (1/100)
          (Z.to_nat 400)).
Proof.
  apply (binomial_price_european_reference Spec.Call).
  - lra.
  - lia.
  - apply demo_probability; [lra | lia].
Defined.

(** C2. For an American-style input with [T > 0], [N >= 1] and
    [0 < p < 1], [binomial_price] compares with early exercise at every
    backward step [i = N - 1, ..., 0]: each node [j = 0..i] gets the
    maximum of its discounted continuation value and of the call/put
    exercise value at the recomputed underlying price
    [S * u^j * d^(i - j)]. *)
Theorem binomial_price_american_reference (kind : Spec.option_kind)
    (S K T r sigma : R) (N : Z) (q : R) :
  0 < T -> (1 <= N)%Z ->
  valid_probability (risk_neutral_p r sigma q (T / IZR N)) ->
  binomial_price S K T r sigma N (Spec.kind_name kind) "amer" q
  = Ok (Spec.american_price kind S K T r sigma q (Z.to_nat N)).
Proof.
  intros HT HN Hp.
  rewrite binomial_price_american_spec by trivial.
  now rewrite kind_of_name.
Qed.

Lemma binomial_price_american_reference_witness :
  binomial_price 100 100 (3/4) (4/100) (2/10) 400 "put" "amer" (1/100)
  = Ok (Spec.american_price Spec.Put 100 100 (3/4) (4/100) (2/10) (1/100)
          (Z.to_nat 400)).
Proof.
  apply (binomial_price_american_reference Spec.Put).
  - lra.
  - lia.
  - apply demo_probability; [lra | lia].
Defined.

(** C3, at two inputs the check means to reject: with [N = 0] the division
    [T / N] raises before the check is reached, and with [T < 0] and
    [N < 0] the step length is positive, the check passes and the pricer
    fails on the empty tree. Neither raises the configuration error. *)
Theorem invalid_configuration_not_raised :
  binomial_price 100 100 (3/4) (4/100) (2/10) 0 "call" "amer" (1/100)
  = Raise ZeroDivisionError
  /\ binomial_price 100 100 (-3/4) (4/100) (2/10) (-400) "call" "amer"
       (1/100)
     = Raise IndexError.
Proof.
  split; [apply binomial_price_zero_steps|].
  apply binomial_price_both_negative; [lra | lia |].
  apply valid_probability_small_step.
  - lra.
  - unfold Rabs. destruct (Rcase_abs _); lra.
Qed.

(** C4. When the step length [dt = T / N] is positive and the derived
    probability is not strictly between 0 and 1, [binomial_price] raises the
    arbitrage error, which carries the computed probability. *)
Theorem binomial_price_arbitrage_violation (S K T r sigma : R) (N : Z)
    (option style : string) (q dt : R) :
  py_truediv T N = Ok dt -> 0 < dt ->
  ~ valid_probability (risk_neutral_p r sigma q dt) ->
  binomial_price S K T r sigma N option style q
  = Raise (ArbitrageViolation (risk_neutral_p r sigma q dt)).
Proof.
  unfold py_truediv. destruct (Z.eqb_spec N 0) as [|HN]; [discriminate|].
  intros [= <-] Hdt Hp. now apply binomial_price_arbitrage.
Qed.

Lemma binomial_price_arbitrage_violation_witness :
  binomial_price 100 100 1 1 (1/2) 1 "call" "amer" 0
  = Raise (ArbitrageViolation (risk_neutral_p 1 (1/2) 0 (1 / IZR 1))).
Proof.
  apply binomial_price_arbitrage_violation.
  - reflexivity.
  - lra.
  - apply carry_above_up_move.
    replace (1 / IZR 1) with 1 by lra. rewrite sqrt_1. lra.
Defined.

(** C5. For every input with [T > 0], [N >= 1] and a derived probability
    strictly between 0 and 1, whatever the option kind and exercise style,
    [binomial_price] returns a price: neither check fires, every iteration
    [i] of the loop starts on a layer of exactly [i + 2] values, so that the
    slices [V[1:i+2]] and [V[0:i+1]] lie inside it, and the final [V[0]]
    exists. *)
Theorem binomial_price_returns (S K T r sigma : R) (N : Z)
    (option style : string) (q : R) :
  0 < T -> (1 <= N)%Z ->
  valid_probability (risk_neutral_p r sigma q (T / IZR N)) ->
  (exists v, binomial_price S K T r sigma N option style q = Ok v)
  /\ Forall (fun iV => List.length (snd iV) = (fst iV + 2)%nat)
       (price_layers S K T r sigma N option style q).
Proof.
  intros HT HN Hp. split.
  - now apply binomial_price_ok.
  - now apply price_layers_in_bounds.
Qed.

Lemma binomial_price_returns_witness :
  (exists v,
     binomial_price 100 100 (3/4) (4/100) (2/10) 1 "put" "euro" (1/100)
     = Ok v)
  /\ Forall (fun iV => List.length (snd iV) = (fst iV + 2)%nat)
       (price_layers 100 100 (3/4) (4/100) (2/10) 1 "put" "euro" (1/100)).
Proof.
  apply binomial_price_returns.
  - lra.
  - lia.
  - apply demo_probability; [lra | lia].
Defined.

(** C6. Whenever the American-style and the European-style calls of
    [binomial_price] on the same parameters both return, the American price
    is at least the European one, for calls and for puts. *)
Theorem american_at_least_european (S K T r sigma : R) (N : Z)
    (option : string) (q a e : R) :
  binomial_price S K T r sigma N option "amer" q = Ok a ->
  binomial_price S K T r sigma N option "euro" q = Ok e ->
  e <= a.
Proof.
  intros Ha He.
  destruct (binomial_price_inv _ _ _ _ _ _ _ _ _ _ Ha) as (HT & HN & Hv).
  rewrite binomial_price_american_spec in Ha by trivial.
  rewrite binomial_price_european_spec in He by (trivial; discriminate).
  injection Ha as <-. injection He as <-.
  destruct Hv as (p & Hp & Hr).
  destruct (spec_parameters T r sigma N q HN p Hp) as (_ & _ & _ & Hpp & _).
  unfold Spec.european_price, Spec.american_price.
  apply american_dominates_induction.
  - left. apply exp_pos.
  - rewrite Hpp. lra.
  - intros j _. apply Rle_refl.
Qed.

Lemma american_at_least_european_witness :
  Spec.european_price Spec.Put 100 100 (3/4) (4/100) (2/10) (1/100)
    (Z.to_nat 400)
  <= Spec.american_price Spec.Put 100 100 (3/4) (4/100) (2/10) (1/100)
       (Z.to_nat 400).
Proof.
  assert (Hp : valid_probability
                 (risk_neutral_p (4/100) (2/10) (1/100) (3/4 / IZR 400)))
    by (apply demo_probability; [lra | lia]).
  apply (american_at_least_european 100 100 (3/4) (4/100) (2/10) 400 "put"
           (1/100)).
  - apply (binomial_price_american_spec 100 100 (3/4) (4/100) (2/10) 400
             "put" "amer" (1/100)); [lra | lia | reflexivity | exact Hp].
  - apply (binomial_price_european_spec 100 100 (3/4) (4/100) (2/10) 400
             "put" "euro" (1/100)); [lra | lia | discriminate | exact Hp].
Defined.

(** C7. On a valid input ([T > 0], [N >= 1], [0 < p < 1]) the European call
    price [C] and the European put price [P] of [binomial_price] exist and
    satisfy put-call parity exactly:
    [C - P = S * exp (- q * T) - K * exp (- r * T)]. *)
Theorem put_call_parity (S K T r sigma : R) (N : Z) (q : R) :
  0 < T -> (1 <= N)%Z ->
  valid_probability (risk_neutral_p r sigma q (T / IZR N)) ->
  exists C P,
    binomial_price S K T r sigma N "call" "euro" q = Ok C
    /\ binomial_price S K T r sigma N "put" "euro" q = Ok P
    /\ C - P = S * exp (- q * T) - K * exp (- r * T).
Proof.
  intros HT HN Hv.
  exists (Spec.european_price Spec.Call S K T r sigma q (Z.to_nat N)),
         (Spec.european_price Spec.Put S K T r sigma q (Z.to_nat N)).
  split; [|split].
  - apply (binomial_price_european_spec S K T r sigma N "call");
      trivial; discriminate.
  - apply (binomial_price_european_spec S K T r sigma N "put");
      trivial; discriminate.
  - destruct Hv as (p & Hp & Hr).
    destruct (spec_parameters T r sigma N q HN p Hp)
      as (Hdt & Hu & Hd & Hpp & Hdisc).
    unfold Spec.european_price.
    rewrite (parity_induction S K (Spec.u T sigma (Z.to_nat N))
               (Spec.d T sigma (Z.to_nat N))) with (a := 1) (b := 1).
    + rewrite Hu, Hd, Hpp, Hdisc, (risk_neutral_mean _ _ _ _ _ Hp).
      rewrite <- exp_plus, !exp_pow, IZR_to_nat by lia.
      assert (HNR : 0 < IZR N) by (apply IZR_lt; lia).
      replace (IZR N * (- r * (T / IZR N) + (r - q) * (T / IZR N)))
        with (- q * T) by (field; lra).
      replace (IZR N * (- r * (T / IZR N))) with (- r * T) by (field; lra).
      ring.
    + intros j Hj. rewrite !nth_maturity_layer by exact Hj.
      rewrite call_minus_put. ring.
Qed.

Lemma put_call_parity_witness :
  exists C P,
    binomial_price 100 100 (3/4) (4/100) (2/10) 400 "call" "euro" (1/100)
    = Ok C
    /\ binomial_price 100 100 (3/4) (4/100) (2/10) 400 "put" "euro" (1/100)
       = Ok P
    /\ C - P = 100 * exp (- (1/100) * (3/4)) - 100 * exp (- (4/100) * (3/4)).
Proof.
  apply put_call_parity.
  - lra.
  - lia.
  - apply demo_probability; [lra | lia].
Defined.

(** C8. Whenever [greeks_binomial] returns, its theta is
    [- (vp - vm) / (2 * h_T)], where [vp] is the price at expiry [T + h_T]
    and [vm] the price at expiry [max (T - h_T) 1e-6]; the denominator is
    [2 * h_T] also when the downward bump is cut off at the floor. *)
Theorem greeks_theta (S K T r sigma : R) (N : Z) (option style : string)
    (q h_S h_sigma h_T h_r : R) (g : GreeksResult) :
  greeks_result S K T r sigma N option style q h_S h_sigma h_T h_r = Ok g ->
  exists vp vm,
    binomial_price S K (T + h_T) r sigma N option style q = Ok vp
    /\ binomial_price S K (Rmax (T - h_T) (1 / 1000000)) r sigma N
         option style q = Ok vm
    /\ theta g = - (vp - vm) / (2 * h_T).
Proof.
  unfold greeks_result. intros H.
  destruct (greeks_binomial S K T r sigma N option style q
              h_S h_sigma h_T h_r []) as [res log] eqn:E.
  cbn [fst] in H. subst res. apply greeks_binomial_inv in E.
  destruct E as (price0 & up & dn & vp & vm & sp & sm & rp & rm & E).
  decompose [and] E. subst g. exists vp, vm.
  repeat (split; [assumption|]). cbn [theta]. unfold Rdiv. ring.
Qed.

Lemma greeks_theta_witness :
  Rmax (1/365 - 1/365) (1 / 1000000) = 1 / 1000000
  /\ exists g,
       greeks_result 100 100 (1/365) (4/100) (2/10) 400 "put" "amer" (1/100)
         (1/100) (1/100) (1/365) (1/10000) = Ok g
       /\ exists vp vm,
            binomial_price 100 100 (1/365 + 1/365) (4/100) (2/10) 400
              "put" "amer" (1/100) = Ok vp
            /\ binomial_price 100 100 (Rmax (1/365 - 1/365) (1 / 1000000))
                 (4/100) (2/10) 400 "put" "amer" (1/100) = Ok vm
            /\ theta g = - (vp - vm) / (2 * (1/365)).
Proof.
  split.
  - apply Rmax_right. lra.
  - destruct one_day_greeks as [g Hg]. exists g. split; [exact Hg|].
    exact (greeks_theta _ _ _ _ _ _ _ _ _ _ _ _ _ g Hg).
Defined.

(** C9, as the code has it. A run of [greeks_binomial] that returns has
    called [binomial_price] exactly nine times (the base price and an
    up/down pair for each of spot, expiry, volatility and rate), each time
    with the step count [N] it was given. *)
Theorem greeks_nine_calls (S K T r sigma : R) (N : Z) (option style : string)
    (q h_S h_sigma h_T h_r : R) (g : GreeksResult) :
  greeks_result S K T r sigma N option style q h_S h_sigma h_T h_r = Ok g ->
  List.length
    (greeks_calls S K T r sigma N option style q h_S h_sigma h_T h_r) = 9%nat
  /\ Forall (fun c => call_N c = N)
       (greeks_calls S K T r sigma N option style q h_S h_sigma h_T h_r).
Proof.
  intros H. split.
  - exact (greeks_calls_count _ _ _ _ _ _ _ _ _ _ _ _ _ g H).
  - apply greeks_calls_bounds.
Qed.

Lemma greeks_nine_calls_witness :
  List.length
    (greeks_calls 100 100 (3/4) (4/100) (2/10) 400 "call" "amer" (1/100)
       (1/100) (1/100) (1/365) (1/10000)) = 9%nat
  /\ Forall (fun c => call_N c = 400%Z)
       (greeks_calls 100 100 (3/4) (4/100) (2/10) 400 "call" "amer" (1/100)
          (1/100) (1/100) (1/365) (1/10000)).
Proof.
  destruct demo_greeks as [g Hg].
  exact (greeks_nine_calls _ _ _ _ _ _ _ _ _ _ _ _ _ g Hg).
Defined.

(** C9, as stated, fails on the demonstration run: the calls are not
    seven. *)
Lemma greeks_not_seven_calls :
  List.length
    (greeks_calls 100 100 (3/4) (4/100) (2/10) 400 "call" "amer" (1/100)
       (1/100) (1/100) (1/365) (1/10000)) <> 7%nat.
Proof.
  destruct demo_greeks as [g Hg].
  rewrite (greeks_calls_count _ _ _ _ _ _ _ _ _ _ _ _ _ g Hg). discriminate.
Qed.

(** C10. With [T > 0], [N >= 1] and zero volatility, [u = d = 1], the
    denominator [u - d] of the risk-neutral probability is zero, the
    probability is not strictly between 0 and 1, and [binomial_price] never
    returns a price: it fails at the probability check. *)
Theorem zero_volatility_never_priced (S K T r : R) (N : Z)
    (option style : string) (q : R) :
  0 < T -> (1 <= N)%Z ->
  up_factor 0 (T / IZR N) = 1
  /\ down_factor 0 (T / IZR N) = 1
  /\ between_0_1 (risk_neutral_p r 0 q (T / IZR N)) = false
  /\ binomial_price S K T r 0 N option style q
     = Raise (ArbitrageViolation (risk_neutral_p r 0 q (T / IZR N))).
Proof.
  intros HT HN.
  destruct (zero_volatility_factors (T / IZR N)) as [Hu Hd].
  pose proof (zero_volatility_probability r q (T / IZR N)) as Hp.
  repeat split; trivial.
  - now apply between_0_1_false.
  - apply binomial_price_arbitrage;
      [lia | now apply step_length_pos | exact Hp].
Qed.

Lemma zero_volatility_never_priced_witness :
  up_factor 0 (3/4 / IZR 400) = 1
  /\ down_factor 0 (3/4 / IZR 400) = 1
  /\ between_0_1 (risk_neutral_p (4/100) 0 (1/100) (3/4 / IZR 400)) = false
  /\ binomial_price 100 100 (3/4) (4/100) 0 400 "call" "amer" (1/100)
     = Raise (ArbitrageViolation
                (risk_neutral_p (4/100) 0 (1/100) (3/4 / IZR 400))).
Proof.
  apply zero_volatility_never_priced.
  - lra.
  - lia.
Defined.

(** * Further properties of the pricer *)

(** ** Every outcome of [binomial_price] *)

Lemma binomial_price_lattice (S K T r sigma : R) (N : Z)
    (option style : string) (q : R) :
  0 < T -> (1 <= N)%Z ->
  valid_probability (risk_neutral_p r sigma q (T / IZR N)) ->
  binomial_price S K T r sigma N option style q
  = Ok (lattice_price (style =? "amer")%string (Spec.kind_of option)
          S K T r sigma q (Z.to_nat N)).
Proof.
  intros HT HN Hv. unfold lattice_price.
  destruct (String.eqb_spec style "amer") as [Hs|Hs].
  - now apply binomial_price_american_spec.
  - now apply binomial_price_european_spec.
Qed.

Lemma step_length_sign (T : R) (N : Z) :
  (N < 0)%Z -> 0 < T / IZR N -> T < 0.
Proof.
  intros HN Hdt. assert (HNR : IZR N < 0) by (apply IZR_lt; lia).
  replace T with (T / IZR N * IZR N) by (field; lra). nra.
Qed.

(** The decision table of the pricer: which of its five outcomes an input
    gets. *)
Lemma binomial_price_outcome (S K T r sigma : R) (N : Z)
    (option style : string) (q : R) :
  (N = 0%Z
   /\ binomial_price S K T r sigma N option style q
      = Raise ZeroDivisionError)
  \/ (N <> 0%Z /\ T / IZR N <= 0
      /\ binomial_price S K T r sigma N option style q
         = Raise InvalidConfiguration)
  \/ (N <> 0%Z /\ 0 < T / IZR N
      /\ ~ valid_probability (risk_neutral_p r sigma q (T / IZR N))
      /\ binomial_price S K T r sigma N option style q
         = Raise (ArbitrageViolation (risk_neutral_p r sigma q (T / IZR N))))
  \/ (T < 0 /\ (N < 0)%Z
      /\ valid_probability (risk_neutral_p r sigma q (T / IZR N))
      /\ binomial_price S K T r sigma N option style q = Raise IndexError)
  \/ (0 < T /\ (1 <= N)%Z
      /\ valid_probability (risk_neutral_p r sigma q (T / IZR N))
      /\ binomial_price S K T r sigma N option style q
         = Ok (lattice_price (style =? "amer")%string (Spec.kind_of option)
                 S K T r sigma q (Z.to_nat N))).
Proof.
  destruct (Z.eq_dec N 0) as [->|HN0].
  { left. split; [reflexivity | apply binomial_price_zero_steps]. }
  right. destruct (Rle_dec (T / IZR N) 0) as [Hdt|Hdt].
  { left. repeat split; trivial.
    now apply binomial_price_invalid_configuration. }
  right. apply Rnot_le_lt in Hdt.
  destruct (between_0_1 (risk_neutral_p r sigma q (T / IZR N))) eqn:Hb.
  - apply between_0_1_true in Hb. fold (valid_probability
      (risk_neutral_p r sigma q (T / IZR N))) in Hb.
    right. destruct (Z_lt_le_dec N 0) as [Hneg|Hpos].
    + left. assert (HT : T < 0) by now apply step_length_sign with N.
      repeat split; trivial. now apply binomial_price_both_negative.
    + right. assert (HN : (1 <= N)%Z) by lia.
      assert (HT : 0 < T).
      { assert (HNR : 0 < IZR N) by (apply IZR_lt; lia).
        replace T with (T / IZR N * IZR N) by (field; lra).
        now apply Rmult_lt_0_compat. }
      repeat split; trivial. now apply binomial_price_lattice.
  - apply between_0_1_false in Hb. left. repeat split; trivial.
    now apply binomial_price_arbitrage.
Qed.

(** X1. [binomial_price] returns a price exactly when the expiry is
    positive, the step count at least one and the derived probability
    strictly between 0 and 1. *)
Theorem binomial_price_returns_iff (S K T r sigma : R) (N : Z)
    (option style : string) (q : R) :
  (exists v, binomial_price S K T r sigma N option style q = Ok v)
  <-> 0 < T /\ (1 <= N)%Z
      /\ valid_probability (risk_neutral_p r sigma q (T / IZR N)).
Proof.
  split.
  - intros [v Hv]. now apply binomial_price_inv in Hv.
  - intros (HT & HN & Hp). now apply binomial_price_ok.
Qed.


(** X3. The pricer fails on its last line, reading [V[0]] of an empty
    layer, exactly when expiry and step count are both negative and the
    derived probability is strictly between 0 and 1. *)
Theorem index_error_iff (S K T r sigma : R) (N : Z)
    (option style : string) (q : R) :
  binomial_price S K T r sigma N option style q = Raise IndexError
  <-> T < 0 /\ (N < 0)%Z
      /\ valid_probability (risk_neutral_p r sigma q (T / IZR N)).
Proof.
  split.
  - intros H.
    destruct (binomial_price_outcome S K T r sigma N option style q)
      as [(_ & E)|[(_ & _ & E)|[(_ & _ & _ & E)|[(HT & HN & Hp & _)
          |(_ & _ & _ & E)]]]]; try congruence.
    now repeat split.
  - intros (HT & HN & Hp). now apply binomial_price_both_negative.
Qed.

(** X4. The array operations of the backward loop never fail: on no input
    does the pricer end in numpy's shape-mismatch error. *)
Theorem never_broadcast_error (S K T r sigma : R) (N : Z)
    (option style : string) (q : R) :
  binomial_price S K T r sigma N option style q <> Raise BroadcastError.
Proof.
  destruct (binomial_price_outcome S K T r sigma N option style q)
    as [(_ & E)|[(_ & _ & E)|[(_ & _ & _ & E)|[(_ & _ & _ & E)
        |(_ & _ & _ & E)]]]]; rewrite E; discriminate.
Qed.





Lemma failure_transfer (S K S' K' T r sigma : R) (N : Z)
    (option style option' style' : string) (q : R) (e : exn) :
  binomial_price S K T r sigma N option style q = Raise e ->
  binomial_price S' K' T r sigma N option' style' q = Raise e.
Proof.
  intros H.
  destruct (binomial_price_outcome S K T r sigma N option style q)
    as [(HN & E)|[(HN & Hdt & E)|[(HN & Hdt & Hp & E)|[(HT & HN & Hp & E)
        |(_ & _ & _ & E)]]]]; rewrite E in H; try discriminate;
    injection H as <-.
  - subst N. apply binomial_price_zero_steps.
  - now apply binomial_price_invalid_configuration.
  - now apply binomial_price_arbitrage.
  - now apply binomial_price_both_negative.
Qed.

(** X6. Whether and how the pricer fails depends on the expiry, the step
    count, the rate, the volatility and the dividend yield only: an input
    that fails fails in the same way at every spot, strike, option kind and
    exercise style. *)
Theorem failure_independent_of_contract (S K S' K' T r sigma : R) (N : Z)
    (option style option' style' : string) (q : R) (e : exn) :
  binomial_price S K T r sigma N option style q = Raise e ->
  binomial_price S' K' T r sigma N option' style' q = Raise e.
Proof. apply failure_transfer. Qed.

Lemma failure_independent_of_contract_witness :
  binomial_price 50 80 (3/4) (4/100) 0 400 "put" "euro" (1/100)
  = Raise (ArbitrageViolation
             (risk_neutral_p (4/100) 0 (1/100) (3/4 / IZR 400))).
Proof.
  apply (failure_independent_of_contract 100 100 50 80 (3/4) (4/100) 0 400
           "call" "amer").
  apply binomial_price_arbitrage; [lia | lra |].
  apply zero_volatility_probability.
Defined.

(** ** Relations between lattices *)

(** A relation between the nodes of up to three layers that every backward
    step carries from step [i + 1] to step [i] holds at the root. *)
Lemma backward_induction_rel3 (step1 step2 step3 : nat -> list R -> list R)
    (P : nat -> nat -> R -> R -> R -> Prop) :
  (forall i V1 V2 V3,
      (forall j, (j <= i + 1)%nat ->
         P (i + 1)%nat j (nth j V1 0) (nth j V2 0) (nth j V3 0)) ->
      forall j, (j <= i)%nat ->
        P i j (nth j (step1 i V1) 0) (nth j (step2 i V2) 0)
              (nth j (step3 i V3) 0)) ->
  forall n V1 V2 V3,
    (forall j, (j <= n)%nat ->
       P n j (nth j V1 0) (nth j V2 0) (nth j V3 0)) ->
    P O O (nth 0 (Spec.backward_induction step1 n V1) 0)
          (nth 0 (Spec.backward_induction step2 n V2) 0)
          (nth 0 (Spec.backward_induction step3 n V3) 0).
Proof.
  intros Hstep n. induction n as [|n IH]; intros V1 V2 V3 H.
  - apply H. lia.
  - cbn [Spec.backward_induction]. apply IH. apply Hstep.
    intros j Hj. rewrite Nat.add_1_r in Hj |- *. now apply H.
Qed.

Lemma backward_induction_rel2 (step1 step2 : nat -> list R -> list R)
    (P : nat -> nat -> R -> R -> Prop) :
  (forall i V1 V2,
      (forall j, (j <= i + 1)%nat ->
         P (i + 1)%nat j (nth j V1 0) (nth j V2 0)) ->
      forall j, (j <= i)%nat ->
        P i j (nth j (step1 i V1) 0) (nth j (step2 i V2) 0)) ->
  forall n V1 V2,
    (forall j, (j <= n)%nat -> P n j (nth j V1 0) (nth j V2 0)) ->
    P O O (nth 0 (Spec.backward_induction step1 n V1) 0)
          (nth 0 (Spec.backward_induction step2 n V2) 0).
Proof.
  intros Hstep n V1 V2 H.
  exact (backward_induction_rel3 step1 step2 step2
           (fun i j a b _ => P i j a b)
           (fun i W1 W2 _ => Hstep i W1 W2) n V1 V2 V2 H).
Qed.

Lemma backward_induction_rel1 (step : nat -> list R -> list R)
    (P : nat -> nat -> R -> Prop) :
  (forall i V,
      (forall j, (j <= i + 1)%nat -> P (i + 1)%nat j (nth j V 0)) ->
      forall j, (j <= i)%nat -> P i j (nth j (step i V) 0)) ->
  forall n V,
    (forall j, (j <= n)%nat -> P n j (nth j V 0)) ->
    P O O (nth 0 (Spec.backward_induction step n V) 0).
Proof.
  intros Hstep n V H.
  exact (backward_induction_rel2 step step (fun i j a _ => P i j a)
           (fun i W _ => Hstep i W) n V V H).
Qed.

Lemma nth_lattice_step (american : bool) (kind : Spec.option_kind)
    (S K u d p disc : R) (i j : nat) (V : list R) :
  (j <= i)%nat ->
  nth j (lattice_step american kind S K u d p disc i V) 0
  = if american
    then Rmax (Spec.continuation p disc V j)
              (Spec.exercise_value kind K (Spec.underlying S u d i j))
    else Spec.continuation p disc V j.
Proof.
  intros H. unfold lattice_step. destruct american.
  - now apply nth_american_step.
  - now apply nth_european_step.
Qed.

Lemma lattice_price_unfold (american : bool) (kind : Spec.option_kind)
    (S K T r sigma q : R) (n : nat) :
  lattice_price american kind S K T r sigma q n
  = nth 0 (Spec.backward_induction
             (lattice_step american kind S K (Spec.u T sigma n)
                (Spec.d T sigma n) (Spec.p T r sigma q n) (Spec.disc T r n))
             n
             (Spec.maturity_layer kind S K (Spec.u T sigma n)
                (Spec.d T sigma n) n)) 0.
Proof. now destruct american. Qed.

(** Case analysis on the maxima of a goal, innermost first. *)
Ltac split_max :=
  unfold Spec.exercise_value;
  repeat match goal with
         | |- context [Rmax ?a ?b] =>
             lazymatch a with context [Rmax _ _] => fail | _ => idtac end;
             lazymatch b with context [Rmax _ _] => fail | _ => idtac end;
             let H := fresh "Hmax" in
             destruct (Rle_dec a b) as [H|H];
             [ rewrite (Rmax_right a b H)
             | apply Rnot_le_lt, Rlt_le in H; rewrite (Rmax_left a b H) ]
         end.

Section Lattices.

Variables (u d p disc : R).
Hypothesis Hu : 0 < u.
Hypothesis Hd : 0 < d.
Hypothesis Hp : 0 < p < 1.
Hypothesis Hdisc : 0 < disc.

Lemma underlying_factor_pos (i j : nat) : 0 < u ^ j * d ^ (i - j).
Proof. apply Rmult_lt_0_compat; now apply pow_lt. Qed.

Lemma underlying_scale (S : R) (i j : nat) :
  Spec.underlying S u d i j = S * (u ^ j * d ^ (i - j)).
Proof. unfold Spec.underlying. ring. Qed.

Lemma underlying_root (S : R) : Spec.underlying S u d 0 0 = S.
Proof. unfold Spec.underlying. cbn [pow Nat.sub]. ring. Qed.

Lemma continuation_nonneg (V : list R) (j : nat) :
  0 <= nth (j + 1) V 0 -> 0 <= nth j V 0 ->
  0 <= Spec.continuation p disc V j.
Proof.
  intros H1 H0. unfold Spec.continuation.
  apply Rmult_le_pos; [lra|].
  apply Rplus_le_le_0_compat; apply Rmult_le_pos; lra.
Qed.

(** No node of the lattice is negative. *)
Lemma lattice_nonneg (american : bool) (kind : Spec.option_kind) (S K : R)
    (n : nat) :
  0 <= nth 0 (Spec.backward_induction
                (lattice_step american kind S K u d p disc) n
                (Spec.maturity_layer kind S K u d n)) 0.
Proof.
  apply (backward_induction_rel1 _ (fun _ _ a => 0 <= a)).
  - intros i V H j Hj. rewrite nth_lattice_step by exact Hj.
    assert (Hc : 0 <= Spec.continuation p disc V j)
      by (apply continuation_nonneg; apply H; lia).
    destruct american; [|exact Hc].
    eapply Rle_trans; [exact Hc | apply Rmax_l].
  - intros j Hj. rewrite nth_maturity_layer by exact Hj.
    destruct kind; apply Rmax_r.
Qed.

(** With early exercise, the root is worth at least what exercising at once
    pays. *)
Lemma american_intrinsic (kind : Spec.option_kind) (S K : R) (n : nat) :
  Spec.exercise_value kind K S
  <= nth 0 (Spec.backward_induction
              (lattice_step true kind S K u d p disc) n
              (Spec.maturity_layer kind S K u d n)) 0.
Proof.
  rewrite <- (underlying_root S) at 1.
  apply (backward_induction_rel1 _
           (fun i j a =>
              Spec.exercise_value kind K (Spec.underlying S u d i j) <= a)).
  - intros i V _ j Hj. rewrite nth_lattice_step by exact Hj. apply Rmax_r.
  - intros j Hj. rewrite nth_maturity_layer by exact Hj. apply Rle_refl.
Qed.

(** A higher strike lowers every node of a call lattice and raises every
    node of a put lattice. *)
Lemma lattice_strike_mono (american : bool) (kind : Spec.option_kind)
    (S K1 K2 : R) (n : nat) :
  K1 <= K2 ->
  let v1 := nth 0 (Spec.backward_induction
                     (lattice_step american kind S K1 u d p disc) n
                     (Spec.maturity_layer kind S K1 u d n)) 0 in
  let v2 := nth 0 (Spec.backward_induction
                     (lattice_step american kind S K2 u d p disc) n
                     (Spec.maturity_layer kind S K2 u d n)) 0 in
  match kind with Spec.Call => v2 <= v1 | Spec.Put => v1 <= v2 end.
Proof.
  intros HK v1 v2. subst v1 v2.
  apply (backward_induction_rel2 _ _
           (fun _ _ a b =>
              match kind with Spec.Call => b <= a | Spec.Put => a <= b end)).
  - intros i V1 V2 H j Hj. rewrite !nth_lattice_step by exact Hj.
    pose proof (H (j + 1)%nat ltac:(lia)) as H1.
    pose proof (H j ltac:(lia)) as H0.
    set (x := Spec.underlying S u d i j).
    destruct kind.
    + assert (Hc : Spec.continuation p disc V2 j
                   <= Spec.continuation p disc V1 j)
        by (apply continuation_mono; trivial; lra).
      destruct american; [|exact Hc]. split_max; lra.
    + assert (Hc : Spec.continuation p disc V1 j
                   <= Spec.continuation p disc V2 j)
        by (apply continuation_mono; trivial; lra).
      destruct american; [|exact Hc]. split_max; lra.
  - intros j Hj. rewrite !nth_maturity_layer by exact Hj.
    destruct kind; split_max; lra.
Qed.

(** A higher spot raises every node of a call lattice and lowers every node
    of a put lattice. *)
Lemma lattice_spot_mono (american : bool) (kind : Spec.option_kind)
    (S1 S2 K : R) (n : nat) :
  S1 <= S2 ->
  let v1 := nth 0 (Spec.backward_induction
                     (lattice_step american kind S1 K u d p disc) n
                     (Spec.maturity_layer kind S1 K u d n)) 0 in
  let v2 := nth 0 (Spec.backward_induction
                     (lattice_step american kind S2 K u d p disc) n
                     (Spec.maturity_layer kind S2 K u d n)) 0 in
  match kind with Spec.Call => v1 <= v2 | Spec.Put => v2 <= v1 end.
Proof.
  intros HS v1 v2. subst v1 v2.
  assert (Hx : forall i j,
             Spec.underlying S1 u d i j <= Spec.underlying S2 u d i j).
  { intros i j. rewrite !underlying_scale.
    apply Rmult_le_compat_r; [|exact HS].
    left. apply underlying_factor_pos. }
  apply (backward_induction_rel2 _ _
           (fun _ _ a b =>
              match kind with Spec.Call => a <= b | Spec.Put => b <= a end)).
  - intros i V1 V2 H j Hj. rewrite !nth_lattice_step by exact Hj.
    pose proof (H (j + 1)%nat ltac:(lia)) as H1.
    pose proof (H j ltac:(lia)) as H0.
    pose proof (Hx i j) as Hxij.
    destruct kind.
    + assert (Hc : Spec.continuation p disc V1 j
                   <= Spec.continuation p disc V2 j)
        by (apply continuation_mono; trivial; lra).
      destruct american; [|exact Hc]. split_max; lra.
    + assert (Hc : Spec.continuation p disc V2 j
                   <= Spec.continuation p disc V1 j)
        by (apply continuation_mono; trivial; lra).
      destruct american; [|exact Hc]. split_max; lra.
  - intros j Hj. rewrite !nth_maturity_layer by exact Hj.
    pose proof (Hx n j) as Hxnj. destruct kind; split_max; lra.
Qed.

End Lattices.

Section LatticeShape.

Variables (u d p disc : R).
Hypothesis Hu : 0 < u.
Hypothesis Hd : 0 < d.
Hypothesis Hp : 0 < p < 1.
Hypothesis Hdisc : 0 < disc.







End LatticeShape.

(** ** Prices *)



Lemma binomial_price_ok_lattice (S K T r sigma : R) (N : Z)
    (option style : string) (q v : R) :
  binomial_price S K T r sigma N option style q = Ok v ->
  0 < T /\ (1 <= N)%Z
  /\ valid_probability (risk_neutral_p r sigma q (T / IZR N))
  /\ v = lattice_price (style =? "amer")%string (Spec.kind_of option)
           S K T r sigma q (Z.to_nat N).
Proof.
  intros H.
  destruct (binomial_price_inv _ _ _ _ _ _ _ _ _ _ H) as (HT & HN & Hv).
  rewrite binomial_price_lattice in H by trivial. injection H as <-.
  now repeat split.
Qed.

(** The lattice parameters of a valid configuration. *)
Lemma lattice_parameters (T r sigma q : R) (N : Z) :
  0 < T -> (1 <= N)%Z ->
  valid_probability (risk_neutral_p r sigma q (T / IZR N)) ->
  0 < Spec.u T sigma (Z.to_nat N)
  /\ 0 < Spec.d T sigma (Z.to_nat N)
  /\ 0 < Spec.p T r sigma q (Z.to_nat N) < 1
  /\ 0 < Spec.disc T r (Z.to_nat N)
  /\ Spec.disc T r (Z.to_nat N) = exp (- r * (T / IZR N))
  /\ Spec.disc T r (Z.to_nat N)
     * (Spec.p T r sigma q (Z.to_nat N) * Spec.u T sigma (Z.to_nat N)
        + (1 - Spec.p T r sigma q (Z.to_nat N))
          * Spec.d T sigma (Z.to_nat N))
     = exp (- q * (T / IZR N)).
Proof.
  intros HT HN (p & Hp & Hr).
  destruct (spec_parameters T r sigma N q HN p Hp)
    as (Hdt & Hu & Hd & Hpp & Hdisc).
  rewrite Hu, Hd, Hpp, Hdisc. repeat split; try lra.
  - apply up_factor_pos.
  - rewrite down_factor_exp. apply exp_pos.
  - apply exp_pos.
  - rewrite (risk_neutral_mean _ _ _ _ _ Hp), <- exp_plus. f_equal. ring.
Qed.

Lemma demo_price (S K : R) (option style : string) :
  binomial_price S K (3/4) (4/100) (2/10) 400 option style (1/100)
  = Ok (lattice_price (style =? "amer")%string (Spec.kind_of option)
          S K (3/4) (4/100) (2/10) (1/100) (Z.to_nat 400)).
Proof.
  apply binomial_price_lattice; [lra | lia |].
  apply demo_probability; [lra | lia].
Qed.

(** X7. A price that [binomial_price] returns is never negative. *)
Theorem price_nonneg (S K T r sigma : R) (N : Z) (option style : string)
    (q v : R) :
  binomial_price S K T r sigma N option style q = Ok v -> 0 <= v.
Proof.
  intros H. apply binomial_price_ok_lattice in H as (HT & HN & Hv & ->).
  destruct (lattice_parameters T r sigma q N HT HN Hv)
    as (Hu & Hd & Hp & Hdisc & _).
  rewrite lattice_price_unfold. now apply lattice_nonneg.
Qed.

Lemma price_nonneg_witness :
  0 <= lattice_price true Spec.Put 100 120 (3/4) (4/100) (2/10) (1/100)
         (Z.to_nat 400).
Proof.
  exact (price_nonneg 100 120 (3/4) (4/100) (2/10) 400 "put" "amer" (1/100)
           _ (demo_price 100 120 "put" "amer")).
Defined.

(** X8. An American-style price is at least the payoff of exercising at
    once, [max (S - K) 0] for a call and [max (K - S) 0] otherwise. *)
Theorem american_price_at_least_exercise (S K T r sigma : R) (N : Z)
    (option : string) (q v : R) :
  binomial_price S K T r sigma N option "amer" q = Ok v ->
  Forall (fun x => x <= v) (payoff K option [S]).
Proof.
  intros H. apply binomial_price_ok_lattice in H as (HT & HN & Hv & ->).
  destruct (lattice_parameters T r sigma q N HT HN Hv)
    as (Hu & Hd & Hp & Hdisc & _).
  rewrite payoff_spec. cbn [map String.eqb Ascii.eqb Bool.eqb].
  constructor; [|constructor].
  rewrite lattice_price_unfold. now apply american_intrinsic.
Qed.

Lemma american_price_at_least_exercise_witness :
  Forall (fun x => x <= lattice_price true Spec.Put 100 120 (3/4) (4/100)
                         (2/10) (1/100) (Z.to_nat 400))
         (payoff 120 "put" [100]).
Proof.
  exact (american_price_at_least_exercise 100 120 (3/4) (4/100) (2/10) 400
           "put" (1/100) _ (demo_price 100 120 "put" "amer")).
Defined.

(** X9. With everything else fixed, a higher strike never raises a call
    price and never lowers a put price, in either exercise style. *)
Theorem price_monotone_in_strike (S K1 K2 T r sigma : R) (N : Z)
    (option style : string) (q v1 v2 : R) :
  K1 <= K2 ->
  binomial_price S K1 T r sigma N option style q = Ok v1 ->
  binomial_price S K2 T r sigma N option style q = Ok v2 ->
  if (option =? "call")%string then v2 <= v1 else v1 <= v2.
Proof.
  intros HK H1 H2.
  apply binomial_price_ok_lattice in H1 as (HT & HN & Hv & ->).
  apply binomial_price_ok_lattice in H2 as (_ & _ & _ & ->).
  destruct (lattice_parameters T r sigma q N HT HN Hv)
    as (Hu & Hd & Hp & Hdisc & _).
  rewrite !lattice_price_unfold.
  pose proof (lattice_strike_mono (Spec.u T sigma (Z.to_nat N))
                (Spec.d T sigma (Z.to_nat N))
                (Spec.p T r sigma q (Z.to_nat N))
                (Spec.disc T r (Z.to_nat N))) as H.
  repeat specialize (H ltac:(assumption)).
  specialize (H (style =? "amer")%string (Spec.kind_of option)
                S K1 K2 (Z.to_nat N) HK).
  cbv zeta in H. unfold Spec.kind_of in *.
  now destruct (option =? "call")%string.
Qed.

Lemma price_monotone_in_strike_witness :
  lattice_price false Spec.Call 100 110 (3/4) (4/100) (2/10) (1/100)
    (Z.to_nat 400)
  <= lattice_price false Spec.Call 100 90 (3/4) (4/100) (2/10) (1/100)
       (Z.to_nat 400).
Proof.
  apply (price_monotone_in_strike 100 90 110 (3/4) (4/100) (2/10) 400
           "call" "euro" (1/100)).
  - lra.
  - apply demo_price.
  - apply demo_price.
Defined.

Lemma spot_monotone (S1 S2 K T r sigma : R) (N : Z)
    (option style : string) (q v1 v2 : R) :
  S1 <= S2 ->
  binomial_price S1 K T r sigma N option style q = Ok v1 ->
  binomial_price S2 K T r sigma N option style q = Ok v2 ->
  if (option =? "call")%string then v1 <= v2 else v2 <= v1.
Proof.
  intros HS H1 H2.
  apply binomial_price_ok_lattice in H1 as (HT & HN & Hv & ->).
  apply binomial_price_ok_lattice in H2 as (_ & _ & _ & ->).
  destruct (lattice_parameters T r sigma q N HT HN Hv)
    as (Hu & Hd & Hp & Hdisc & _).
  rewrite !lattice_price_unfold.
  pose proof (lattice_spot_mono (Spec.u T sigma (Z.to_nat N))
                (Spec.d T sigma (Z.to_nat N))
                (Spec.p T r sigma q (Z.to_nat N))
                (Spec.disc T r (Z.to_nat N))) as H.
  repeat specialize (H ltac:(assumption)).
  specialize (H (style =? "amer")%string (Spec.kind_of option)
                S1 S2 K (Z.to_nat N) HS).
  cbv zeta in H. unfold Spec.kind_of in *.
  now destruct (option =? "call")%string.
Qed.

(** X10. With everything else fixed, a higher spot never lowers a call
    price and never raises a put price, in either exercise style. *)
Theorem price_monotone_in_spot (S1 S2 K T r sigma : R) (N : Z)
    (option style : string) (q v1 v2 : R) :
  S1 <= S2 ->
  binomial_price S1 K T r sigma N option style q = Ok v1 ->
  binomial_price S2 K T r sigma N option style q = Ok v2 ->
  if (option =? "call")%string then v1 <= v2 else v2 <= v1.
Proof. apply spot_monotone. Qed.

Lemma price_monotone_in_spot_witness :
  lattice_price true Spec.Put 105 100 (3/4) (4/100) (2/10) (1/100)
    (Z.to_nat 400)
  <= lattice_price true Spec.Put 95 100 (3/4) (4/100) (2/10) (1/100)
       (Z.to_nat 400).
Proof.
  apply (price_monotone_in_spot 95 105 100 (3/4) (4/100) (2/10) 400
           "put" "amer" (1/100)).
  - lra.
  - apply demo_price.
  - apply demo_price.
Defined.












(** * Further properties of the Greeks wrapper *)

Lemma py_div_raise (x y : R) (e : exn) :
  py_div x y = Raise e -> e = ZeroDivisionError /\ y = 0.
Proof.
  unfold py_div. destruct (Req_dec_T y 0); [|discriminate].
  intros [= <-]. now split.
Qed.

Lemma py_pow_2 (x : R) : py_pow x 2 = x ^ 2.
Proof. reflexivity. Qed.

Section GreeksRuns.

Variables (S K T r sigma : R) (N : Z) (option style : string).
Variables (q h_S h_sigma h_T h_r : R).



(** A failure of the first call ends the run at once. *)
Lemma greeks_base_failure (e : exn) :
  binomial_price S K T r sigma N option style q = Raise e ->
  greeks_binomial S K T r sigma N option style q h_S h_sigma h_T h_r []
  = (Raise e, [Call_ S K T r sigma N option style q]).
Proof.
  intros E. unfold greeks_binomial. now rewrite bindM_call, E.
Qed.

End GreeksRuns.

Lemma greeks_result_inv (S K T r sigma : R) (N : Z) (option style : string)
    (q h_S h_sigma h_T h_r : R) (g : GreeksResult) :
  greeks_result S K T r sigma N option style q h_S h_sigma h_T h_r = Ok g ->
  exists log,
    greeks_binomial S K T r sigma N option style q h_S h_sigma h_T h_r []
    = (Ok g, log).
Proof.
  unfold greeks_result. intros H.
  destruct (greeks_binomial S K T r sigma N option style q
              h_S h_sigma h_T h_r []) as [res log].
  cbn [fst] in H. subst res. now exists log.
Qed.

(** X16. A result of [greeks_binomial] holds the base price and the central
    differences of the prices at the bumped spot, volatility and rate:
    [delta = (up - dn) / (2 h_S)], [gamma = (up - 2 price0 + dn) / h_S^2],
    [vega = (sp - sm) / (2 h_sigma)], [rho = (rp - rm) / (2 h_r)]. *)
Theorem greeks_formulas (S K T r sigma : R) (N : Z) (option style : string)
    (q h_S h_sigma h_T h_r : R) (g : GreeksResult) :
  greeks_result S K T r sigma N option style q h_S h_sigma h_T h_r = Ok g ->
  exists up dn sp sm rp rm,
    binomial_price S K T r sigma N option style q = Ok (price g)
    /\ binomial_price (S + h_S) K T r sigma N option style q = Ok up
    /\ binomial_price (S - h_S) K T r sigma N option style q = Ok dn
    /\ binomial_price S K T r (sigma + h_sigma) N option style q = Ok sp
    /\ binomial_price S K T r (sigma - h_sigma) N option style q = Ok sm
    /\ binomial_price S K T (r + h_r) sigma N option style q = Ok rp
    /\ binomial_price S K T (r - h_r) sigma N option style q = Ok rm
    /\ delta g = (up - dn) / (2 * h_S)
    /\ gamma g = (up - 2 * price g + dn) / h_S ^ 2
    /\ vega g = (sp - sm) / (2 * h_sigma)
    /\ rho g = (rp - rm) / (2 * h_r).
Proof.
  intros H. apply greeks_result_inv in H as [log E].
  apply greeks_binomial_inv in E.
  destruct E as (price0 & up & dn & vp & vm & sp & sm & rp & rm & E).
  decompose [and] E. subst g. cbn [price delta gamma vega rho].
  exists up, dn, sp, sm, rp, rm. now repeat split.
Qed.

Lemma greeks_formulas_witness :
  exists g,
    greeks_result 100 100 (3/4) (4/100) (2/10) 400 "call" "amer" (1/100)
      (1/100) (1/100) (1/365) (1/10000) = Ok g
    /\ exists up dn sp sm rp rm,
         binomial_price 100 100 (3/4) (4/100) (2/10) 400 "call" "amer"
           (1/100) = Ok (price g)
         /\ binomial_price (100 + 1/100) 100 (3/4) (4/100) (2/10) 400
              "call" "amer" (1/100) = Ok up
         /\ binomial_price (100 - 1/100) 100 (3/4) (4/100) (2/10) 400
              "call" "amer" (1/100) = Ok dn
         /\ binomial_price 100 100 (3/4) (4/100) (2/10 + 1/100) 400
              "call" "amer" (1/100) = Ok sp
         /\ binomial_price 100 100 (3/4) (4/100) (2/10 - 1/100) 400
              "call" "amer" (1/100) = Ok sm
         /\ binomial_price 100 100 (3/4) (4/100 + 1/10000) (2/10) 400
              "call" "amer" (1/100) = Ok rp
         /\ binomial_price 100 100 (3/4) (4/100 - 1/10000) (2/10) 400
              "call" "amer" (1/100) = Ok rm
         /\ delta g = (up - dn) / (2 * (1/100))
         /\ gamma g = (up - 2 * price g + dn) / (1/100) ^ 2
         /\ vega g = (sp - sm) / (2 * (1/100))
         /\ rho g = (rp - rm) / (2 * (1/10000)).
Proof.
  destruct demo_greeks as [g Hg]. exists g. split; [exact Hg|].
  exact (greeks_formulas _ _ _ _ _ _ _ _ _ _ _ _ _ g Hg).
Defined.


(** X18. A volatility bump equal to the volatility prices the down bump at
    zero volatility, where the pricer always fails: [greeks_binomial] never
    returns. *)
Theorem vega_bump_equal_to_volatility (S K T r sigma : R) (N : Z)
    (option style : string) (q h_S h_T h_r : R) (g : GreeksResult) :
  greeks_result S K T r sigma N option style q h_S sigma h_T h_r <> Ok g.
Proof.
  intros H. apply greeks_result_inv in H as [log E].
  apply greeks_binomial_inv in E.
  destruct E as (price0 & up & dn & vp & vm & sp & sm & rp & rm & E).
  decompose [and] E.
  match goal with
  | Hsm : binomial_price S K T r (sigma - sigma) N option style q = Ok sm
    |- _ =>
      replace (sigma - sigma) with 0 in Hsm by lra;
      apply binomial_price_inv in Hsm as (_ & _ & Hv);
      exact (zero_volatility_probability _ _ _ Hv)
  end.
Qed.

(** X19. When the first call, at the base parameters, fails, the wrapper
    fails with the same exception and has called the pricer only once. *)
Theorem greeks_base_failure_propagates (S K T r sigma : R) (N : Z)
    (option style : string) (q h_S h_sigma h_T h_r : R) (e : exn) :
  binomial_price S K T r sigma N option style q = Raise e ->
  greeks_result S K T r sigma N option style q h_S h_sigma h_T h_r = Raise e
  /\ greeks_calls S K T r sigma N option style q h_S h_sigma h_T h_r
     = [Call_ S K T r sigma N option style q].
Proof.
  intros E. unfold greeks_result, greeks_calls.
  now rewrite (greeks_base_failure S K T r sigma N option style q
                 h_S h_sigma h_T h_r e E).
Qed.

Lemma greeks_base_failure_propagates_witness :
  greeks_result 100 100 (-3/4) (4/100) (2/10) 400 "call" "amer" (1/100)
    (1/100) (1/100) (1/365) (1/10000) = Raise InvalidConfiguration
  /\ greeks_calls 100 100 (-3/4) (4/100) (2/10) 400 "call" "amer" (1/100)
       (1/100) (1/100) (1/365) (1/10000)
     = [Call_ 100 100 (-3/4) (4/100) (2/10) 400 "call" "amer" (1/100)].
Proof.
  apply greeks_base_failure_propagates.
  apply binomial_price_invalid_configuration; [lia | lra].
Defined.

Ltac failed_call E :=
  cbn [fst snd app]; intros [= <-]; right;
  match type of E with
  | binomial_price ?a ?b ?c ?d ?e ?f ?g ?h ?i = _ =>
      exists (Call_ a b c d e f g h i)
  end;
  split; [cbn; tauto | exact E].

Ltac failed_div D :=
  cbn [fst]; intros [= <-]; left;
  apply py_div_raise in D as [-> D]; split; [reflexivity|];
  try (rewrite py_pow_2 in D; simpl in D);
  solve [ left; nra | right; left; nra | right; right; left; nra
        | right; right; right; nra ].

Tactic Notation "try_call" ident(E) :=
  rewrite bindM_call;
  match goal with
  | |- context [match ?c with Ok _ => _ | Raise _ => _ end] =>
      destruct c eqn:E; [|failed_call E]
  end.

Tactic Notation "try_div" ident(D) :=
  rewrite bindM_lift;
  match goal with
  | |- context [match ?c with Ok _ => _ | Raise _ => _ end] =>
      destruct c eqn:D; [|failed_div D]
  end.



(** X21. With a positive spot bump, the delta of a result is not negative
    for a call and not positive for a put. *)
Theorem greeks_delta_sign (S K T r sigma : R) (N : Z) (option style : string)
    (q h_S h_sigma h_T h_r : R) (g : GreeksResult) :
  0 < h_S ->
  greeks_result S K T r sigma N option style q h_S h_sigma h_T h_r = Ok g ->
  if (option =? "call")%string then 0 <= delta g else delta g <= 0.
Proof.
  intros Hh H. apply greeks_result_inv in H as [log E].
  apply greeks_binomial_inv in E.
  destruct E as (price0 & up & dn & vp & vm & sp & sm & rp & rm
                 & _ & Eup & Edn & _ & _ & _ & _ & _ & _ & -> & _).
  cbn [delta].
  assert (HS : S - h_S <= S + h_S) by lra.
  pose proof (spot_monotone _ _ _ _ _ _ _ _ _ _ _ _ HS Edn Eup) as Hm.
  assert (Hinv : 0 < / (2 * h_S)) by (apply Rinv_0_lt_compat; lra).
  unfold Rdiv. destruct (option =? "call")%string; nra.
Qed.

Lemma greeks_delta_sign_witness :
  exists g,
    greeks_result 100 100 (3/4) (4/100) (2/10) 400 "call" "amer" (1/100)
      (1/100) (1/100) (1/365) (1/10000) = Ok g
    /\ 0 <= delta g.
Proof.
  destruct demo_greeks as [g Hg]. exists g. split; [exact Hg|].
  apply (greeks_delta_sign 100 100 (3/4) (4/100) (2/10) 400 "call" "amer"
           (1/100) (1/100) (1/100) (1/365) (1/10000) g); [lra | exact Hg].
Defined.


